(** * mktcmenu: menu descriptor compiler and EEPROM map

    Shallow embedding of [mktcmenu.py]: the EEPROM storage map
    ([EEPROMMap]), the menu entry model ([MenuBaseType] and its
    subclasses), identifier generation, the code emitter traversal and the
    callback overlap check of [do_codegen].

    Conventions.
    - Python [int] is [Z]; [dict] with string keys is [gmap string _]; a
      [set] of tuples is a [gset]; [None]-able attributes are [option].
    - A Python exception is a value of [exn]; a method that mutates the
      EEPROM map or the output buffers is a function from the state to a
      result paired with the state it leaves behind (an exception does not
      roll back what was mutated before it was raised).
    - [str] values are modelled over the code points 0..127. *)

From Stdlib Require Import ZArith Ascii String List Bool Lia.
From stdpp Require Import base gmap strings list fin_maps.

Local Open Scope string_scope.
Local Open Scope list_scope.
Local Open Scope Z_scope.

Set Warnings "-register-all".

(** ** Exceptions *)

Inductive exn :=
| RuntimeError (msg : string)
| ValueError (msg : string)
| KeyError (key : string)
| IndexError.

Definition AddressSpaceExhausted : exn :=
  RuntimeError "EEPROM address space exhausted. Please run defragmentation and bump EEPROM mapping version.".

Definition NoSpaceLeft : exn :=
  RuntimeError "No space left on EEPROM. Please run defragmentation and bump EEPROM mapping version.".

(** ** class EEPROMMap(UserDict) *)

Module EEPROMMap.

(** The [{'offset': _, 'size': _}] dictionaries stored in the map. *)
Record OffSize := { offset : Z; size : Z }.

#[global] Instance OffSize_eq_dec : EqDecision OffSize.
Proof. solve_decision. Defined.

Record t := {
  data : gmap string OffSize;
  _auto_index : Z;
  capacity : Z;
  varstore_bar : Z;
  spare_segments : gmap string Z
}.

(** [__init__(self, capacity=0xffff, reserve=0)] *)
Definition __init__ (capacity reserve : Z) : t :=
  {| data := {[ "_reserved" := {| offset := 0; size := 2 |} ]};
     _auto_index := 2;
     capacity := capacity;
     varstore_bar := capacity - reserve;
     spare_segments := ∅ |}.

Definition auto_index (self : t) : Z := _auto_index self.

(** [auto_allocate(self, name, size)]: the two [raise]s come before any
    mutation, so the state paired with an exception is [self]. *)
Definition auto_allocate (name : string) (size : Z) (self : t)
  : (exn + OffSize) * t :=
  let max_space := Z.min (varstore_bar self) (capacity self) in
  let offset := _auto_index self in
  if (offset >=? 65535) || (offset + size >? 65535) then
    (inl AddressSpaceExhausted, self)
  else if (offset >=? max_space) || (offset + size >=? max_space) then
    (inl NoSpaceLeft, self)
  else
    let allocated := {| offset := offset; size := size |} in
    (inr allocated,
     {| data := <[ name := allocated ]> (data self);
        _auto_index := _auto_index self + size;
        capacity := capacity self;
        varstore_bar := varstore_bar self;
        spare_segments := spare_segments self |}).

(** [__contains__], [__getitem__] and [__delitem__] of [UserDict]. *)
Definition contains (key : string) (self : t) : bool :=
  bool_decide (is_Some (data self !! key)).

Definition delitem (key : string) (self : t) : t :=
  {| data := delete key (data self);
     _auto_index := _auto_index self;
     capacity := capacity self;
     varstore_bar := varstore_bar self;
     spare_segments := spare_segments self |}.

(** The mapping handed to [yaml_dump] by [save] and expected from
    [yaml_load] by [load]: each of its keys is present or absent. *)
Record YamlDoc := {
  doc_capacity : option Z;           (* 'capacity' *)
  doc_varstore_bar : option Z;       (* 'varstore-bar' *)
  doc_auto_index : option Z;         (* 'auto-index' *)
  doc_vars : option (gmap string OffSize);        (* 'vars' *)
  doc_spare_segments : option (gmap string Z)     (* 'spare-segments' *)
}.

(** [d[key]] on such a mapping. *)
Definition getitem {A} (key : string) (v : option A) : exn + A :=
  match v with
  | Some a => inr a
  | None => inl (KeyError key)
  end.

Section Yaml.

(** PyYAML is an external library: [yaml_dump] and [yaml_load] are taken as
    given, [File] being the text they write and read. *)
Context {File : Type} (yaml_dump : YamlDoc → File) (yaml_load : File → YamlDoc).

(** [load(cls, fmap)]: [dict.update(d)] is the union that prefers [d]. *)
Definition load (fmap : File) : exn + t :=
  let data_ := yaml_load fmap in
  let obj := __init__ 65535 0 in
  match getitem "capacity" (doc_capacity data_) with
  | inl e => inl e
  | inr capacity_ =>
  match getitem "varstore-bar" (doc_varstore_bar data_) with
  | inl e => inl e
  | inr varstore_bar_ =>
  match getitem "auto-index" (doc_auto_index data_) with
  | inl e => inl e
  | inr auto_index_ =>
      inr {| capacity := capacity_;
             varstore_bar := varstore_bar_;
             _auto_index := auto_index_;
             data := match doc_vars data_ with
                     | Some vars => vars ∪ ∅
                     | None => data obj
                     end;
             spare_segments := match doc_spare_segments data_ with
                               | Some segs => segs ∪ spare_segments obj
                               | None => spare_segments obj
                               end |}
  end end end.

(** [save(self, fmap)]: the text written to [fmap]. *)
Definition save (self : t) : File :=
  yaml_dump
    {| doc_capacity := Some (capacity self);
       doc_varstore_bar := Some (varstore_bar self);
       doc_auto_index := Some (_auto_index self);
       doc_vars := Some (data self);
       doc_spare_segments :=
         if bool_decide (stdpp.base.size (spare_segments self) ≠ 0%nat)
         then Some (spare_segments self) else None |}.

End Yaml.

End EEPROMMap.

(** ** Stateful, failing computations

    [EM S A] is a method body that reads and mutates a state [S] and either
    returns an [A] or raises: the state component of the result is the
    state at the point of return or of the [raise]. *)

Definition EM (S A : Type) : Type := S → (exn + A) * S.

#[global] Instance EM_ret {S} : MRet (EM S) := λ A a s, (inr a, s).

#[global] Instance EM_bind {S} : MBind (EM S) := λ A B f c s,
  match c s with
  | (inl e, s') => (inl e, s')
  | (inr a, s') => f a s'
  end.

Definition raise {S A} (e : exn) : EM S A := λ s, (inl e, s).

Definition lift_res {S A} (r : exn + A) : EM S A := λ s, (r, s).

Definition get {S} : EM S S := λ s, (inr s, s).

Definition modify {S} (f : S → S) : EM S () := λ s, (inr (), f s).

(** ** str helpers: [RE_AUTOID_DELIM], [str.capitalize] *)

Definition code (c : ascii) : Z := Z.of_N (N_of_ascii c).

Definition chr (z : Z) : ascii := ascii_of_N (Z.to_N z).

Definition is_ascii_upper (c : ascii) : bool := (65 <=? code c) && (code c <=? 90).
Definition is_ascii_lower (c : ascii) : bool := (97 <=? code c) && (code c <=? 122).
Definition is_ascii_digit (c : ascii) : bool := (48 <=? code c) && (code c <=? 57).

Definition isalnum (c : ascii) : bool :=
  is_ascii_upper c || is_ascii_lower c || is_ascii_digit c.

(** A character matched by the class [[\W_]]: not a word character, or the
    underscore. *)
Definition autoid_delim (c : ascii) : bool :=
  negb (isalnum c || (code c =? 95)) || (code c =? 95).

Definition upper (c : ascii) : ascii := if is_ascii_lower c then chr (code c - 32) else c.
Definition lower (c : ascii) : ascii := if is_ascii_upper c then chr (code c + 32) else c.

Fixpoint str_lower (s : string) : string :=
  match s with
  | EmptyString => EmptyString
  | String c r => String (lower c) (str_lower r)
  end.

(** [str.capitalize()]: first character upper-cased, all the others
    lower-cased. *)
Definition capitalize (w : string) : string :=
  match w with
  | EmptyString => EmptyString
  | String c r => String (upper c) (str_lower r)
  end.

(** [RE_AUTOID_DELIM.split(s)] for [RE_AUTOID_DELIM = re.compile(r'[\W_]+')]:
    the pieces of [s] between the maximal runs of delimiter characters,
    with an empty piece before a leading run and after a trailing one.
    [in_delim] tells that the previous character belonged to a run. *)
Fixpoint re_split_from (in_delim : bool) (s : string) : list string :=
  match s with
  | EmptyString => [EmptyString]
  | String c r =>
      if autoid_delim c then
        if in_delim then re_split_from true r
        else EmptyString :: re_split_from true r
      else
        match re_split_from false r with
        | w :: ws => String c w :: ws
        | [] => [String c EmptyString]
        end
  end.

Definition RE_AUTOID_DELIM_split (s : string) : list string := re_split_from false s.

(** [''.join(l)] *)
Definition join (l : list string) : string := String.concat "" l.

(** ** Data model for menu entries *)

(** The attributes set by [MenuBaseType.__init__]. *)
Record MenuBaseType := {
  _global_index : Z;
  id_ : option string;
  id_suffix : option string;
  name : string;
  persistent : bool;
  read_only : bool;
  local_only : bool;
  visible : bool;
  callback : option string
}.

(** The modes accepted by [ScrollChoiceType._validate_data_source]. *)
Inductive DataSourceMode := eeprom | array_in_eeprom | ram | array_in_ram | custom_renderfn.

(** The values accepted by [BooleanType._validate_response]. *)
Inductive Response := true_false | yes_no | on_off.

(** The subclasses of [MenuBaseType], each with the attributes its
    [__init__] adds. *)
Inductive MenuNode :=
| AnalogType (b : MenuBaseType) (precision offset divisor : Z) (unit_ : option string)
| LargeNumberType (b : MenuBaseType) (decimal_places length : Z) (signed : bool)
| FloatType (b : MenuBaseType) (decimal_places : Z)
| EnumType (b : MenuBaseType) (options : list string)
| ScrollChoiceType (b : MenuBaseType) (item_size items : Z)
    (_mode : DataSourceMode) (_address : string)
| BooleanType (b : MenuBaseType) (response : Response)
| SubMenuType (b : MenuBaseType) (items : list MenuNode) (auth : bool)
| ActionType (b : MenuBaseType).

Definition base (self : MenuNode) : MenuBaseType :=
  match self with
  | AnalogType b _ _ _ _ | LargeNumberType b _ _ _ | FloatType b _
  | EnumType b _ | ScrollChoiceType b _ _ _ _ | BooleanType b _
  | SubMenuType b _ _ | ActionType b => b
  end.

(** Class attribute [serializable]. *)
Definition serializable (self : MenuNode) : bool :=
  match self with
  | AnalogType _ _ _ _ _ | LargeNumberType _ _ _ _ | EnumType _ _
  | ScrollChoiceType _ _ _ _ _ | BooleanType _ _ => true
  | FloatType _ _ | SubMenuType _ _ _ | ActionType _ => false
  end.

(** Class attribute [cpp_type_prefix]. *)
Definition cpp_type_prefix (self : MenuNode) : string :=
  match self with
  | AnalogType _ _ _ _ _ => "Analog"
  | LargeNumberType _ _ _ _ => "EditableLargeNumber"
  | FloatType _ _ => "Float"
  | EnumType _ _ => "Enum"
  | ScrollChoiceType _ _ _ _ _ => "ScrollChoice"
  | BooleanType _ _ => "Boolean"
  | SubMenuType _ _ _ => "Sub"
  | ActionType _ => "Action"
  end.

(** Class attribute [render_callback_parent]. *)
Definition render_callback_parent (self : MenuNode) : string :=
  match self with
  | LargeNumberType _ _ _ _ => "largeNumItemRenderFn"
  | ScrollChoiceType _ _ _ _ _ => "enumItemRenderFn"
  | _ => ""
  end.

Definition get_serialized_size (self : MenuNode) : exn + Z :=
  match self with
  | AnalogType _ _ _ _ _ => inr 2
  | LargeNumberType _ _ _ _ => inr 7
  | FloatType _ _ => inl (ValueError "FloatType is not serializable")
  | EnumType _ _ => inr 2
  | ScrollChoiceType _ _ _ _ _ => inr 2
  | BooleanType _ _ => inr 1
  | SubMenuType _ _ _ => inl (ValueError "SubMenuType is not serializable")
  | ActionType _ => inl (ValueError "ActionType is not serializable")
  end.

Definition get_callback_ref (self : MenuBaseType) : string :=
  match callback self with
  | None => "NO_CALLBACK"
  | Some c => if bool_decide (c = "") then "NO_CALLBACK" else c
  end.

(** [generate_id(self)] *)
Definition generate_id (self : MenuBaseType) : string :=
  let id := match id_ self with
            | Some i => i
            | None => join (map capitalize (RE_AUTOID_DELIM_split (name self)))
            end in
  id +:+ (match id_suffix self with Some s => s | None => "" end).

(** [find_or_allocate_eeprom_space(self, eeprom_map)] *)
Definition find_or_allocate_eeprom_space (self : MenuNode) : EM EEPROMMap.t Z :=
  let id := generate_id (base self) in
  eeprom_map ← get;
  if serializable self && persistent (base self) && EEPROMMap.contains id eeprom_map then
    offsize ← match EEPROMMap.data eeprom_map !! id with
              | Some o => mret o
              | None => raise (KeyError id)
              end;
    sz ← lift_res (get_serialized_size self);
    if EEPROMMap.size offsize =? sz then
      mret (EEPROMMap.offset offsize)
    else
      modify (EEPROMMap.delitem id);;
      sz' ← lift_res (get_serialized_size self);
      new_offsize ← EEPROMMap.auto_allocate id sz';
      mret (EEPROMMap.offset new_offsize)
  else if persistent (base self) then
    sz ← lift_res (get_serialized_size self);
    offsize ← EEPROMMap.auto_allocate id sz;
    mret (EEPROMMap.offset offsize)
  else
    mret 65535.

(** [list_callbacks(self)], with the overrides of [ScrollChoiceType] and
    [SubMenuType]; the result is a Python [set] of [(kind, name)] tuples. *)
Fixpoint list_callbacks (self : MenuNode) : gset (string * string) :=
  let result : gset (string * string) :=
    match callback (base self) with
    | Some c => {[ ("on_change", c) ]}
    | None => ∅
    end in
  match self with
  | ScrollChoiceType _ _ _ custom_renderfn a => result ∪ {[ ("on_render", a) ]}
  | SubMenuType _ items _ => foldl (λ acc item, acc ∪ list_callbacks item) result items
  | _ => result
  end.

(** ** Code emitter

    What the emitter helpers write is kept as a sequence of records, one
    per C++ definition, in the order of the [write] calls: the symbol, its
    C++ type and its initialiser or constructor arguments as resolved
    values. *)

Inductive CppVal :=
| VInt (z : Z)            (* [str] of an integer *)
| VHex (z : Z)            (* [hex] of an integer *)
| VStr (s : string)       (* [cppstr(s)] *)
| VTok (s : string)       (* an identifier or keyword, written as it is *)
| VRef (sym : string)     (* [&sym] *)
| VNullptr.               (* [nullptr] *)

Inductive SrcStmt :=
(* [static const T name [PROGMEM] = { fields };] *)
| SInfo (name type_ : string) (pgmspace : bool) (fields : list CppVal)
(* [T name(args);] *)
| SItem (name type_ : string) (args : list CppVal)
(* [RENDERING_CALLBACK_NAME_INVOKE(params)] *)
| SRenderCallback (params : list CppVal)
(* [static const char name_i[] [PROGMEM] = "s";] *)
| SEnumStr (name : string) (i : nat) (pgmspace : bool) (s : string)
(* [static const char * const name[nmemb] [PROGMEM] = { name_0, ... };] *)
| SEnumStrTable (name : string) (nmemb : nat) (pgmspace : bool)
(* [extern const char * name;] *)
| SExternArray (name : string).

(** [extern T name;] in the header. *)
Inductive HdrDecl :=
| HExtern (name type_ : string).

(** The objects every copy of a [CodeEmitterContext] shares: the two
    output buffers and the EEPROM map. *)
Record EmitState := {
  bufsrc : list SrcStmt;
  bufhdr : list HdrDecl;
  eeprom_map : EEPROMMap.t
}.

(** The attributes of a [CodeEmitterContext] that [copy.copy] duplicates. *)
Record CodeEmitterContext := {
  namespace : list MenuNode;
  next_entry : option MenuNode;
  use_pgmspace : bool
}.

Definition write_src (x : SrcStmt) : EM EmitState () :=
  modify (λ st, {| bufsrc := bufsrc st ++ [x]; bufhdr := bufhdr st;
                   eeprom_map := eeprom_map st |}).

Definition write_hdr (x : HdrDecl) : EM EmitState () :=
  modify (λ st, {| bufsrc := bufsrc st; bufhdr := bufhdr st ++ [x];
                   eeprom_map := eeprom_map st |}).

(** Runs a method of the EEPROM map on [ctx.eeprom_map]. *)
Definition on_eeprom_map {A} (c : EM EEPROMMap.t A) : EM EmitState A := λ st,
  let '(r, m) := c (eeprom_map st) in
  (r, {| bufsrc := bufsrc st; bufhdr := bufhdr st; eeprom_map := m |}).

(** [''.join(ns.generate_id() for ns in namespace)] *)
Definition ns_id_of (namespace : list MenuNode) : string :=
  join (map (λ ns, generate_id (base ns)) namespace).

Definition next_name_ref (next_ns_id : string) (next_entry : option MenuNode) : CppVal :=
  match next_entry with
  | Some e => VRef ("menu" +:+ next_ns_id +:+ generate_id (base e))
  | None => VNullptr
  end.

Definition emit_simple_static_menu_item (self : MenuNode) (ctx : CodeEmitterContext)
    (minfo_extra menu_item_extra : list CppVal)
    (cpp_type_prefix_arg cpp_type_prefix_minfo_arg : option string)
    (next_entry_namespace : option (list MenuNode)) : EM EmitState string :=
  eeprom_offset ← on_eeprom_map (find_or_allocate_eeprom_space self);
  let id := generate_id (base self) in
  let ns_id := ns_id_of (namespace ctx) in
  let next_ns_id := match next_entry_namespace with
                    | None => ns_id
                    | Some ns => ns_id_of ns
                    end in
  let minfo_name := "minfo" +:+ ns_id +:+ id in
  let menu_name := "menu" +:+ ns_id +:+ id in
  let prefix := default (cpp_type_prefix self) cpp_type_prefix_arg in
  let prefix_minfo := default prefix cpp_type_prefix_minfo_arg in
  let minfo_type := prefix_minfo +:+ "MenuInfo" in
  let menu_type := prefix +:+ "MenuItem" in
  let minfo_builtin :=
    [VStr (name (base self)); VInt (_global_index (base self)); VHex eeprom_offset] in
  write_src (SInfo minfo_name minfo_type (use_pgmspace ctx) (minfo_builtin ++ minfo_extra));;
  write_src (SItem menu_name menu_type
               ([VRef minfo_name] ++ menu_item_extra
                ++ [next_name_ref next_ns_id (next_entry ctx)]));;
  write_hdr (HExtern menu_name menu_type);;
  mret menu_name.

Inductive GlobalIndexOrder := after_callback | first | na.

Definition emit_simple_dynamic_menu_item (self : MenuNode) (ctx : CodeEmitterContext)
    (menu_item_extra : list CppVal) (name_prefix cpp_type_prefix_arg : option string)
    (render_callback_parent_arg : option string) (global_index_order : GlobalIndexOrder)
    (next_entry_namespace : option (list MenuNode))
    (custom_callback_ref : option string) : EM EmitState string :=
  eeprom_offset ← on_eeprom_map (find_or_allocate_eeprom_space self);
  let id := generate_id (base self) in
  let ns_id := ns_id_of (namespace ctx) in
  let next_ns_id := match next_entry_namespace with
                    | None => ns_id
                    | Some ns => ns_id_of ns
                    end in
  let menu_name := "menu" +:+ default "" name_prefix +:+ ns_id +:+ id in
  let render_callback_name :=
    default ("fn" +:+ ns_id +:+ id +:+ "RtCall") custom_callback_ref in
  let prefix := default (cpp_type_prefix self) cpp_type_prefix_arg in
  let parent := default (render_callback_parent self) render_callback_parent_arg in
  let menu_type := prefix +:+ "MenuItem" in
  let menu_item_first :=
    match global_index_order with
    | after_callback => [VTok render_callback_name; VInt (_global_index (base self))]
    | first => [VInt (_global_index (base self)); VTok render_callback_name]
    | na => [VTok render_callback_name]
    end in
  match custom_callback_ref with
  | None =>
      write_src (SRenderCallback
                   [VTok render_callback_name; VTok parent; VStr (name (base self));
                    VHex eeprom_offset; VTok (get_callback_ref (base self))])
  | Some _ => mret ()
  end;;
  write_src (SItem menu_name menu_type
               (menu_item_first ++ menu_item_extra
                ++ [next_name_ref next_ns_id (next_entry ctx)]));;
  write_hdr (HExtern menu_name menu_type);;
  mret menu_name.

(** The loop [for i, item in enumerate(items): ctx.next_entry = items[i+1]
    if len(items) > i+1 else None; item.emit_code(ctx)], used by
    [SubMenuType.emit_code] and by [do_codegen]. *)
Definition emit_items (emit_code : MenuNode → CodeEmitterContext → EM EmitState ())
    (namespace : list MenuNode) (use_pgmspace : bool)
  : list MenuNode → EM EmitState () :=
  fix go items :=
    match items with
    | [] => mret ()
    | item :: rest =>
        emit_code item {| namespace := namespace; next_entry := head rest;
                          use_pgmspace := use_pgmspace |};;
        go rest
    end.

Definition response_sym (r : Response) : string :=
  match r with
  | true_false => "NAMING_TRUE_FALSE"
  | on_off => "NAMING_ON_OFF"
  | yes_no => "NAMING_YES_NO"
  end.

Fixpoint emit_enum_strs (name : string) (pgmspace : bool) (i : nat) (options : list string)
  : EM EmitState () :=
  match options with
  | [] => mret ()
  | s :: rest => write_src (SEnumStr name i pgmspace s);; emit_enum_strs name pgmspace (S i) rest
  end.

(** [emit_code(self, ctx)] of each subclass. *)
Fixpoint emit_code (self : MenuNode) (ctx : CodeEmitterContext) {struct self}
  : EM EmitState () :=
  let cb := VTok (get_callback_ref (base self)) in
  match self with
  | AnalogType _ precision offset divisor unit_ =>
      emit_simple_static_menu_item self ctx
        [VInt precision; cb; VInt offset; VInt divisor; VStr (default "" unit_)]
        [VInt 0] None None None;;
      mret ()
  | LargeNumberType _ decimal_places length signed =>
      emit_simple_dynamic_menu_item self ctx
        [VInt length; VInt decimal_places; VTok (if signed then "true" else "false")]
        None None None after_callback None None;;
      mret ()
  | FloatType _ decimal_places =>
      emit_simple_static_menu_item self ctx [VInt decimal_places; cb] [] None None None;;
      mret ()
  | EnumType _ options =>
      let enum_str_name := "enumStr" +:+ ns_id_of (namespace ctx) +:+ generate_id (base self) in
      emit_enum_strs enum_str_name (use_pgmspace ctx) 0 options;;
      let nmemb := List.length options in
      write_src (SEnumStrTable enum_str_name nmemb (use_pgmspace ctx));;
      emit_simple_static_menu_item self ctx
        [VInt (Z.of_nat nmemb - 1); cb; VTok enum_str_name] [VInt 0] None None None;;
      mret ()
  | ScrollChoiceType _ item_size items _mode _address =>
      '(custom_callback, menu_item_extra) ←
        match _mode with
        | eeprom | array_in_eeprom =>
            st ← get;
            match EEPROMMap.spare_segments (eeprom_map st) !! _address with
            | Some seg => mret (None, [VInt 0; VInt seg; VInt item_size; VInt items])
            | None => raise (KeyError _address)
            end
        | ram | array_in_ram =>
            write_src (SExternArray _address);;
            mret (None, [VInt 0; VTok _address; VInt item_size; VInt items])
        | custom_renderfn =>
            mret (Some _address, [VInt 0; VInt items])
        end;
      emit_simple_dynamic_menu_item self ctx menu_item_extra
        None None None first None custom_callback;;
      mret ()
  | BooleanType _ response =>
      emit_simple_static_menu_item self ctx
        [VInt 1; cb; VTok (response_sym response)] [VTok "false"] None None None;;
      mret ()
  | SubMenuType _ items _ =>
      let subctx_namespace := namespace ctx ++ [self] in
      emit_items emit_code subctx_namespace (use_pgmspace ctx) items;;
      items_0 ← match items with
                | x :: _ => mret x
                | [] => raise IndexError
                end;
      let backctx := {| namespace := namespace ctx; next_entry := Some items_0;
                        use_pgmspace := use_pgmspace ctx |} in
      back_name ← emit_simple_dynamic_menu_item self backctx []
                    (Some "back") (Some "Back") (Some "backSubItemRenderFn") na
                    (Some subctx_namespace) None;
      emit_simple_static_menu_item self ctx [VInt 0; cb] [VRef back_name] None None None;;
      mret ()
  | ActionType _ =>
      emit_simple_static_menu_item self ctx [VInt 0; cb] [] None (Some "Any") None;;
      mret ()
  end.

(** ** do_codegen *)

(** The prototypes written to the callback header. *)
Inductive CbProto :=
| ProtoOnChange (cb_ref : string)     (* [void cb_ref(int id);] *)
| ProtoOnRender (cb_ref : string).    (* [int cb_ref(RuntimeMenuItem* item, ...);] *)

(** The traversal of [desc["items"]]: every top-level item is emitted with
    an empty namespace and its callbacks are added to [callback_list]. *)
Definition callback_list_of (desc_items : list MenuNode) : gset (string * string) :=
  foldl (λ callback_list item, callback_list ∪ list_callbacks item) ∅ desc_items.

Definition do_codegen_items (desc_items : list MenuNode) (use_pgmspace : bool)
  : EM EmitState (gset (string * string)) :=
  emit_items emit_code [] use_pgmspace desc_items;;
  mret (callback_list_of desc_items).

(** [RuntimeError(f'Callback {cb_ref} conflicts with other callbacks.')] *)
Definition conflict_error (cb_ref : string) : exn :=
  RuntimeError ("Callback " +:+ cb_ref +:+ " conflicts with other callbacks.").

(** The loop [for cb_type, cb_ref in callback_list] over some enumeration
    of the set, with the local dictionary [callback_overlap_check]; the
    state is the callback header. *)
Fixpoint do_codegen_callbacks (callback_list : list (string * string))
    (callback_overlap_check : gmap string string) : EM (list CbProto) () :=
  match callback_list with
  | [] => mret ()
  | (cb_type, cb_ref) :: rest =>
      if bool_decide (is_Some (callback_overlap_check !! cb_ref)) then
        raise (conflict_error cb_ref)
      else
        (if bool_decide (cb_type = "on_change") then
           modify (λ bufcb, bufcb ++ [ProtoOnChange cb_ref])
         else if bool_decide (cb_type = "on_render") then
           modify (λ bufcb, bufcb ++ [ProtoOnRender cb_ref])
         else mret ());;
        do_codegen_callbacks rest (<[ cb_ref := cb_type ]> callback_overlap_check)
  end.

(** ** The identifier derivation in the words of the specification

    These definitions follow the specification text, not the code; they
    are what [generate_id] is compared with. *)

Definition flush_word (cur : string) : list string :=
  match cur with
  | EmptyString => []
  | _ => [cur]
  end.

(** "Splitting on any run of non-alphanumeric characters": the words are
    the maximal non-empty runs of alphanumeric characters; [cur] is the run
    read so far. *)
Fixpoint spec_words_from (cur : string) (s : string) : list string :=
  match s with
  | EmptyString => flush_word cur
  | String c r =>
      if isalnum c then spec_words_from (cur +:+ String c EmptyString) r
      else flush_word cur ++ spec_words_from EmptyString r
  end.

Definition spec_words (display_name : string) : list string :=
  spec_words_from EmptyString display_name.










(** All the characters of [s] are code points below 128. *)
Definition is_ascii_str (s : string) : bool :=
  forallb (λ c, code c <? 128) (list_ascii_of_string s).

(** [needle in hay] for two [str]. *)
Fixpoint str_contains (needle hay : string) : bool :=
  String.prefix needle hay ||
  match hay with
  | EmptyString => false
  | String _ r => str_contains needle r
  end.

(** An exception names [s] when [s] occurs in its message. *)
Definition exn_message (e : exn) : string :=
  match e with
  | RuntimeError msg | ValueError msg => msg
  | KeyError key => key
  | IndexError => ""
  end.

Definition exn_names (e : exn) (s : string) : bool := str_contains s (exn_message e).

(** ** Invariants and relations used in the statements *)

(** Every recorded entry of the map ends at or below the cursor. *)
Definition entries_below_cursor (m : EEPROMMap.t) : Prop :=
  map_Forall (λ _ e, EEPROMMap.offset e + EEPROMMap.size e <= EEPROMMap._auto_index m)
             (EEPROMMap.data m).

(** ** Example descriptors and maps *)

Definition example_base (index : Z) (display_name : string) (is_persistent : bool)
    (cb : option string) : MenuBaseType :=
  {| _global_index := index; id_ := None; id_suffix := None; name := display_name;
     persistent := is_persistent; read_only := false; local_only := false;
     visible := true; callback := cb |}.

(** [!tcm/analog {name: Level, persistent: true, max: 255}] *)
Definition level_node : MenuNode := AnalogType (example_base 1 "Level" true None) 255 0 1 None.

(** [!tcm/submenu {name: Settings, items: [Level]}] *)
Definition settings_node : MenuNode :=
  SubMenuType (example_base 2 "Settings" false None) [level_node] false.



(** [!tcm/boolean {name: Enable, persistent: true}] *)
Definition enable_node : MenuNode := BooleanType (example_base 1 "Enable" true None) true_false.

(** [!tcm/action {name: Reset}] *)
Definition reset_node : MenuNode := ActionType (example_base 2 "Reset" false None).

(** A map of capacity 100 that records one entry besides the reserved one,
    the cursor being [cursor]. *)
Definition example_map (key : string) (off sz cursor : Z) : EEPROMMap.t :=
  {| EEPROMMap.data := <[ key := {| EEPROMMap.offset := off; EEPROMMap.size := sz |} ]>
                         (EEPROMMap.data (EEPROMMap.__init__ 100 0));
     EEPROMMap._auto_index := cursor;
     EEPROMMap.capacity := 100;
     EEPROMMap.varstore_bar := 100;
     EEPROMMap.spare_segments := ∅ |}.

(** A piece of a split that is not the empty string. *)
Definition nonempty (w : string) : bool := negb (bool_decide (w = "")).

(** The same with a spare segment, as a ScrollChoice with an EEPROM data
    source needs one. *)
Definition example_map_with_spare (key : string) (off sz cursor : Z) : EEPROMMap.t :=
  {| EEPROMMap.data := EEPROMMap.data (example_map key off sz cursor);
     EEPROMMap._auto_index := cursor;
     EEPROMMap.capacity := 100;
     EEPROMMap.varstore_bar := 80;
     EEPROMMap.spare_segments := {[ "choices" := 80 ]} |}.

(** Some callback name is registered under two different event kinds. *)
Definition callback_conflict (callback_list : gset (string * string)) : Prop :=
  ∃ cb_ref kind1 kind2,
    kind1 ≠ kind2 ∧ (kind1, cb_ref) ∈ callback_list ∧ (kind2, cb_ref) ∈ callback_list.

(** [!tcm/analog {name: Gain, max: 10, callback: cb}] *)
Definition gain_node (cb : string) : MenuNode :=
  AnalogType (example_base 3 "Gain" false (Some cb)) 10 0 1 None.

(** [!tcm/scroll {name: Mode, ..., data-source: "custom-renderfn:fn"}] *)
Definition mode_node (fn : string) : MenuNode :=
  ScrollChoiceType (example_base 4 "Mode" false None) 10 3 custom_renderfn fn.

(** [!tcm/switch {name: Mute, callback: cb}] *)
Definition mute_node (cb : string) : MenuNode :=
  BooleanType (example_base 5 "Mute" false (Some cb)) on_off.

(** The C++ symbol under which [emit_code] defines the menu item of [self]
    inside [namespace]. *)
Definition symbol_of (namespace : list MenuNode) (self : MenuNode) : string :=
  "menu" +:+ ns_id_of namespace +:+ generate_id (base self).

(** The items of a list have been emitted one after the other, each with
    the same namespace and with its next sibling as [next_entry], taking
    the buffers and the map from one state to the other. *)
Inductive items_emitted (namespace : list MenuNode) (use_pgmspace : bool)
  : list MenuNode → EmitState → EmitState → Prop :=
| items_emitted_nil st : items_emitted namespace use_pgmspace [] st st
| items_emitted_cons item rest st st1 st2 :
    emit_code item {| namespace := namespace; next_entry := head rest;
                      use_pgmspace := use_pgmspace |} st = (inr (), st1) →
    items_emitted namespace use_pgmspace rest st1 st2 →
    items_emitted namespace use_pgmspace (item :: rest) st st2.

(** Two runs of the emitter agree on the EEPROM map they leave and on
    whether, and with which exception, they raise. *)
Definition same_map_effect {A B} (r1 : (exn + A) * EmitState) (r2 : (exn + B) * EmitState)
  : Prop :=
  eeprom_map (snd r1) = eeprom_map (snd r2)
  ∧ match fst r1, fst r2 with
    | inl e1, inl e2 => e1 = e2
    | inr _, inr _ => True
    | _, _ => False
    end.

(** An empty output and a fresh map of capacity 100. *)
Definition example_state : EmitState :=
  {| bufsrc := []; bufhdr := []; eeprom_map := EEPROMMap.__init__ 100 0 |}.

Definition example_ctx (namespace : list MenuNode) : CodeEmitterContext :=
  {| namespace := namespace; next_entry := None; use_pgmspace := false |}.

(** The C++ symbol of the back item that [SubMenuType.emit_code] makes
    for the sub-menu [self]. *)
Definition back_symbol_of (namespace : list MenuNode) (self : MenuNode) : string :=
  "menuback" +:+ ns_id_of namespace +:+ generate_id (base self).

(** What [SubMenuType.emit_code] writes to the source after the items of
    the sub-menu [self], whose first item is [items_0]: the back item and
    then the entry of the sub-menu itself. *)
Definition submenu_tail_src (self : MenuNode) (ctx : CodeEmitterContext)
    (items_0 : MenuNode) : list SrcStmt :=
  let ns_id := ns_id_of (namespace ctx) in
  let id := generate_id (base self) in
  let render_fn := "fn" +:+ ns_id +:+ id +:+ "RtCall" in
  [ SRenderCallback [VTok render_fn; VTok "backSubItemRenderFn"; VStr (name (base self));
                     VHex 65535; VTok (get_callback_ref (base self))];
    SItem (back_symbol_of (namespace ctx) self) "BackMenuItem"
      [VTok render_fn; VRef (symbol_of (namespace ctx ++ [self]) items_0)];
    SInfo ("minfo" +:+ ns_id +:+ id) "SubMenuInfo" (use_pgmspace ctx)
      [VStr (name (base self)); VInt (_global_index (base self)); VHex 65535;
       VInt 0; VTok (get_callback_ref (base self))];
    SItem (symbol_of (namespace ctx) self) "SubMenuItem"
      [VRef ("minfo" +:+ ns_id +:+ id); VRef (back_symbol_of (namespace ctx) self);
       next_name_ref ns_id (next_entry ctx)] ].

Definition submenu_tail_hdr (self : MenuNode) (ctx : CodeEmitterContext) : list HdrDecl :=
  [ HExtern (back_symbol_of (namespace ctx) self) "BackMenuItem";
    HExtern (symbol_of (namespace ctx) self) "SubMenuItem" ].

(** ** Well-formed storage maps *)

(** Two slots share no byte. *)
Definition slots_disjoint (a b : EEPROMMap.OffSize) : Prop :=
  EEPROMMap.offset a + EEPROMMap.size a <= EEPROMMap.offset b
  ∨ EEPROMMap.offset b + EEPROMMap.size b <= EEPROMMap.offset a.

(** The slots recorded under different keys are pairwise disjoint. *)
Definition slots_pairwise_disjoint (m : EEPROMMap.t) : Prop :=
  ∀ k1 k2 e1 e2, k1 ≠ k2 →
    EEPROMMap.data m !! k1 = Some e1 → EEPROMMap.data m !! k2 = Some e2 →
    slots_disjoint e1 e2.

Definition map_wf (m : EEPROMMap.t) : Prop :=
  entries_below_cursor m ∧ slots_pairwise_disjoint m.

(** A run of the emitter keeps a property of the EEPROM map, whether it
    returns or raises. *)
Definition keeps_map (I : EEPROMMap.t → Prop) {A} (c : EM EmitState A) : Prop :=
  ∀ st, I (eeprom_map st) → I (eeprom_map (snd (c st))).

(** The fields of the map that no allocation writes are those of [m0], and
    the cursor is not below the one of [m0]. *)
Definition map_frame (m0 m : EEPROMMap.t) : Prop :=
  EEPROMMap.capacity m = EEPROMMap.capacity m0
  ∧ EEPROMMap.varstore_bar m = EEPROMMap.varstore_bar m0
  ∧ EEPROMMap.spare_segments m = EEPROMMap.spare_segments m0
  ∧ EEPROMMap._auto_index m0 <= EEPROMMap._auto_index m.

(** ** Definitions and declarations written by the emitter *)

(** The [extern] declarations that the menu item definitions of a piece of
    source call for, in order. *)
Definition declared_items (src : list SrcStmt) : list HdrDecl :=
  omap (λ s, match s with
             | SItem item_name type_ _ => Some (HExtern item_name type_)
             | _ => None
             end) src.

(** A run only appends to the two buffers, and what it appends to the
    header are the declarations of the menu items it appends to the source. *)
Definition writes_paired {A} (c : EM EmitState A) : Prop :=
  ∀ st, ∃ src' hdr',
    bufsrc (snd (c st)) = bufsrc st ++ src'
    ∧ bufhdr (snd (c st)) = bufhdr st ++ hdr'
    ∧ declared_items src' = hdr'.

(** The next-link that the entry of the [i]-th of [items] must carry. *)
Definition sibling_link (namespace : list MenuNode) (items : list MenuNode) (i : nat)
  : CppVal :=
  match items !! S i with
  | Some next => VRef (symbol_of namespace next)
  | None => VNullptr
  end.

(** ** Character classes of a whole string *)

(** Every character of [s] satisfies [P]. *)
Fixpoint str_forall (P : ascii → bool) (s : string) : bool :=
  match s with
  | EmptyString => true
  | String c r => P c && str_forall P r
  end.

(** ** The nodes of a tree and the callbacks they register *)

(** A node and all the nodes below it. *)
Fixpoint subtree (self : MenuNode) : list MenuNode :=
  self :: match self with
          | SubMenuType _ items _ => flat_map subtree items
          | _ => []
          end.

(** The node [d] itself registers the pair [x]: its [callback] attribute
    as a value-changed callback, or, for a ScrollChoice with a custom render
    function, that function as a render callback. *)
Definition registers (d : MenuNode) (x : string * string) : Prop :=
  (x.1 = "on_change" ∧ callback (base d) = Some x.2)
  ∨ (x.1 = "on_render"
     ∧ ∃ b item_size items, d = ScrollChoiceType b item_size items custom_renderfn x.2).

(** The prototype written to the callback header for a pair. *)
Definition callback_proto (x : string * string) : option CbProto :=
  if bool_decide (x.1 = "on_change") then Some (ProtoOnChange x.2)
  else if bool_decide (x.1 = "on_render") then Some (ProtoOnRender x.2)
  else None.

(** ** Construction of the entries from their properties

    The mapping [props] that the YAML loader hands to a constructor is
    taken key by key: the entry of a key is [None] when the key is absent
    and [Some] of its value otherwise, the value having the type the
    constructor expects. *)

(** [_validate_entry(props, key, required=True)]; with [required=False],
    [_validate_entry(props, key, default=d)] is [props.get(key, d)], that
    is [default d entry], and cannot raise. *)
Definition _validate_entry_required {V} (key : string) (entry : option V) : exn + V :=
  match entry with
  | Some value => inr value
  | None => inl (ValueError ("Required property " +:+ key +:+ " is missing."))
  end.

(** The entries of the keys read by [MenuBaseType.__init__]. *)
Record BaseProps := {
  p_id : option string;            (* 'id' *)
  p_id_suffix : option string;     (* 'id-suffix' *)
  p_name : option string;          (* 'name' *)
  p_persistent : option bool;      (* 'persistent' *)
  p_read_only : option bool;       (* 'read-only' *)
  p_local_only : option bool;      (* 'local-only' *)
  p_visible : option bool;         (* 'visible' *)
  p_callback : option string       (* 'callback' *)
}.

(** [MenuBaseType.__init__(self, props, alias)]; the state is the class
    attribute [MenuBaseType.auto_index], which is advanced before any
    property is read. *)
Definition MenuBaseType___init__ (props : BaseProps) : EM Z MenuBaseType :=
  index ← get;
  modify (λ auto_index, auto_index + 1);;
  name_ ← lift_res (_validate_entry_required "name" (p_name props));
  mret {| _global_index := index;
          id_ := p_id props;
          id_suffix := p_id_suffix props;
          name := name_;
          persistent := default false (p_persistent props);
          read_only := default false (p_read_only props);
          local_only := default false (p_local_only props);
          visible := default true (p_visible props);
          callback := p_callback props |}.

(** The entries of the keys read by [AnalogType.__init__]. *)
Record AnalogProps := {
  p_max : option Z;                (* 'max' *)
  p_min : option Z;                (* 'min' *)
  p_precision : option Z;          (* 'precision' *)
  p_offset : option Z;             (* 'offset' *)
  p_divisor : option Z;            (* 'divisor' *)
  p_unit : option string           (* 'unit' *)
}.

(** [AnalogType.__init__(self, props, alias)] *)
Definition AnalogType___init__ (props : BaseProps) (aprops : AnalogProps) : EM Z MenuNode :=
  b ← MenuBaseType___init__ props;
  let max_ := p_max aprops in
  let min_ := p_min aprops in
  offset_ ← match p_offset aprops, min_ with
            | None, None => mret 0
            | None, Some mn => mret mn
            | Some _, Some _ => raise (ValueError "Offset and min are mutually exclusive.")
            | Some o, None => mret o
            end;
  precision_ ← match p_precision aprops, max_ with
               | None, None => raise (ValueError "One of precision or max must be specified.")
               | None, Some mx => mret (mx - offset_)
               | Some _, Some _ =>
                   raise (ValueError "Precision and max are mutually exclusive.")
               | Some p, None => mret p
               end;
  mret (AnalogType b precision_ offset_ (default 1 (p_divisor aprops)) (p_unit aprops)).

(** [s.split(sep)] for a separator of one character. *)
Fixpoint str_split (sep : ascii) (s : string) : list string :=
  match s with
  | EmptyString => [EmptyString]
  | String c r =>
      if Ascii.eqb c sep then EmptyString :: str_split sep r
      else match str_split sep r with
           | w :: ws => String c w :: ws
           | [] => [String c EmptyString]
           end
  end.

Definition colon : ascii := chr 58.

(** The names in [_valid_entry] of [ScrollChoiceType._validate_data_source]. *)
Definition mode_name (m : DataSourceMode) : string :=
  match m with
  | eeprom => "eeprom"
  | array_in_eeprom => "array-in-eeprom"
  | ram => "ram"
  | array_in_ram => "array-in-ram"
  | custom_renderfn => "custom-renderfn"
  end.

Definition valid_modes : list DataSourceMode :=
  [eeprom; array_in_eeprom; ram; array_in_ram; custom_renderfn].

(** The mode as [emit_code] and [list_callbacks] tell it from the string:
    the two EEPROM modes, the two RAM modes, and anything else taken as the
    custom render function. *)
Definition mode_of_string (s : string) : DataSourceMode :=
  if bool_decide (s = "eeprom") then eeprom
  else if bool_decide (s = "array-in-eeprom") then array_in_eeprom
  else if bool_decide (s = "ram") then ram
  else if bool_decide (s = "array-in-ram") then array_in_ram
  else custom_renderfn.

(** [ScrollChoiceType._validate_data_source(ds)] *)
Definition _validate_data_source (ds : string) : exn + () :=
  match str_split colon ds with
  | [mode; _address] =>
      if bool_decide (mode ∈ map mode_name valid_modes) then inr ()
      else inl (ValueError ("Invalid ScrollChoiceType mode " +:+ mode
             +:+ " (expecting one of ('eeprom', 'array-in-eeprom', 'ram', 'array-in-ram', 'custom-renderfn'))"))
  | _ =>
      (* [len(ds_split) != 2] *)
      inl (ValueError ("Invalid ScrollChoiceType data-source " +:+ ds
                       +:+ " (more than 1 delimiter)"))
  end.

(** The 'data-source' property of a ScrollChoice: required, validated, and
    then split again into [_mode] and [_address]. *)
Definition ScrollChoiceType_data_source (entry : option string)
  : exn + (DataSourceMode * string) :=
  match _validate_entry_required "data-source" entry with
  | inl e => inl e
  | inr data_source =>
      match _validate_data_source data_source with
      | inl e => inl e
      | inr _ =>
          match str_split colon data_source with
          | [_mode; _address] => inr (mode_of_string _mode, _address)
          | [] => inl (ValueError "not enough values to unpack (expected 2, got 0)")
          | [_] => inl (ValueError "not enough values to unpack (expected 2, got 1)")
          | _ => inl (ValueError "too many values to unpack (expected 2)")
          end
      end
  end.

(** The classes named in [YAML_TAG_SUFFIXES]. *)
Inductive NodeClass :=
| AnalogClass | LargeNumberClass | FloatClass | EnumClass | ScrollChoiceClass
| BooleanClass | SubMenuClass | ActionClass.

Definition YAML_TAG_SUFFIXES : list (string * NodeClass) :=
  [ ("analog", AnalogClass); ("fixed", AnalogClass); ("number", AnalogClass);
    ("large-number", LargeNumberClass); ("bcd", LargeNumberClass);
    ("float", FloatClass);
    ("enum", EnumClass); ("option", EnumClass); ("static-option", EnumClass);
    ("scroll-choice", ScrollChoiceClass); ("scroll", ScrollChoiceClass);
    ("dynamic-option", ScrollChoiceClass);
    ("boolean", BooleanClass); ("bool", BooleanClass); ("truefalse", BooleanClass);
    ("switch", BooleanClass); ("onoff", BooleanClass); ("yesno", BooleanClass);
    ("submenu", SubMenuClass); ("menu", SubMenuClass);
    ("action", ActionClass) ].

(** [d[key]] and [key in d] for a dictionary literal with distinct keys. *)
Fixpoint dict_get {V} (d : list (string * V)) (key : string) : option V :=
  match d with
  | [] => None
  | (k, v) :: rest => if bool_decide (k = key) then Some v else dict_get rest key
  end.

(** The class that [tcdesc_multi_constructor] instantiates for a tag. *)
Definition tcdesc_multi_constructor_class (tag_suffix : string) : exn + NodeClass :=
  match dict_get YAML_TAG_SUFFIXES tag_suffix with
  | Some cls => inr cls
  | None => inl (RuntimeError ("Unknown TCMenu menu entry type " +:+ tag_suffix))
  end.

(** [_default] of [BooleanType.__init__]. *)
Definition boolean_default : list (string * string) :=
  [ ("boolean", "true-false"); ("bool", "true-false"); ("truefalse", "true-false");
    ("switch", "on-off"); ("onoff", "on-off"); ("yesno", "yes-no") ].

Definition response_name (r : Response) : string :=
  match r with
  | true_false => "true-false"
  | yes_no => "yes-no"
  | on_off => "on-off"
  end.

(** [BooleanType._validate_response(response)] *)
Definition _validate_response (response : string) : exn + () :=
  if bool_decide (response ∈ map response_name [true_false; yes_no; on_off]) then inr ()
  else inl (ValueError ("Invalid ScrollChoiceType response " +:+ response
         +:+ " (expecting one of ('true-false', 'yes-no', 'on-off'))")).

(** The 'response' attribute set by [BooleanType.__init__] for a node
    declared under [alias]: [_default[alias]] is looked up first, whether the
    property is given or not. *)
Definition BooleanType_response (alias : string) (entry : option string) : exn + string :=
  match dict_get boolean_default alias with
  | None => inl (KeyError alias)
  | Some d =>
      let response := default d entry in
      match _validate_response response with
      | inl e => inl e
      | inr _ => inr response
      end
  end.

(** ** C++ string literals and file names *)

Definition dquote : ascii := chr 34.
Definition backslash : ascii := chr 92.

(** [s.replace('"', r'\"')], with [dquote] for the quotation mark *)
Fixpoint escape_quotes (s : string) : string :=
  match s with
  | EmptyString => EmptyString
  | String c r =>
      if Ascii.eqb c dquote then String backslash (String dquote (escape_quotes r))
      else String c (escape_quotes r)
  end.

(** [cppstr(str_)] *)
Definition cppstr (str_ : string) : string :=
  String dquote (escape_quotes str_ +:+ String dquote EmptyString).

(** Drops the backslash in front of every quotation mark. *)
Fixpoint unescape_quotes (s : string) : string :=
  match s with
  | EmptyString => EmptyString
  | String c r =>
      match r with
      | String d r' =>
          if Ascii.eqb c backslash && Ascii.eqb d dquote then String d (unescape_quotes r')
          else String c (unescape_quotes r)
      | EmptyString => String c EmptyString
      end
  end.

Definition DESC_SUFFIX : string := ".tcmdesc.yaml".
Definition MAP_SUFFIX : string := ".tcmmap.yaml".

(** [s[:n]] and [s[n:]] for [0 <= n]. *)
Fixpoint str_take (n : nat) (s : string) : string :=
  match n, s with
  | S n', String c r => String c (str_take n' r)
  | _, _ => EmptyString
  end.

Fixpoint str_drop (n : nat) (s : string) : string :=
  match n, s with
  | S n', String _ r => str_drop n' r
  | _, _ => s
  end.

(** [s.endswith(suffix)] *)
Definition str_endswith (s suffix : string) : bool :=
  (String.length suffix <=? String.length s)%nat
  && String.eqb (str_drop (String.length s - String.length suffix) s) suffix.

(** The instance name computed by the main program from the base name of
    the descriptor file; [splitext_root] is [os.path.splitext(_)[0]]. *)
Definition desc_instance_name (splitext_root : string → string) (desc_basename : string)
  : string :=
  let is_standard_suffix :=
    (String.length DESC_SUFFIX <? String.length desc_basename)%nat
    && str_endswith desc_basename DESC_SUFFIX in
  if is_standard_suffix
  then str_take (String.length desc_basename - String.length DESC_SUFFIX) desc_basename
  else splitext_root desc_basename.

(** The base name of the default EEPROM map file. *)
Definition eeprom_map_basename (desc_instance_name : string) : string :=
  desc_instance_name +:+ MAP_SUFFIX.

(** ** The rest of do_codegen: root getter and default flags *)

(** The symbol in [getRootMenuItem]: [f'menu{desc["items"][0].generate_id()}'],
    evaluated after the traversal. *)
Definition do_codegen_root (desc_items : list MenuNode) : exn + string :=
  match desc_items with
  | item :: _ => inr ("menu" +:+ generate_id (base item))
  | [] => inl IndexError
  end.

(** The calls written by [emit_default_flags_block]. *)
Inductive FlagCall :=
| SetReadOnly (menu_name : string)        (* [menu_name.setReadOnly(true);] *)
| SetLocalOnly (menu_name : string)       (* [menu_name.setLocalOnly(true);] *)
| SetVisibleFalse (menu_name : string).   (* [menu_name.setVisible(false);] *)

(** [emit_default_flags_block(self, buf, namespace)], the indentation left
    aside. *)
Definition emit_default_flags_block (self : MenuNode) (namespace : list MenuNode)
  : list FlagCall :=
  let menu_name := "menu" +:+ ns_id_of namespace +:+ generate_id (base self) in
  (if read_only (base self) then [SetReadOnly menu_name] else [])
  ++ (if local_only (base self) then [SetLocalOnly menu_name] else [])
  ++ (if negb (visible (base self)) then [SetVisibleFalse menu_name] else []).

(** The body of [setupMenuDefaults]: the loop [for item in desc["items"]]
    with the empty namespace. *)
Definition setupMenuDefaults (desc_items : list MenuNode) : list FlagCall :=
  flat_map (λ item, emit_default_flags_block item []) desc_items.

(** The menu item that a call is made on. *)
Definition flag_call_target (c : FlagCall) : string :=
  match c with
  | SetReadOnly n | SetLocalOnly n | SetVisibleFalse n => n
  end.

(** ** The storage allocator *)

(** Unfolds the plumbing of [EM]. *)
Ltac em_unfold :=
  unfold mbind, mret, EM_bind, EM_ret, get, modify, raise, lift_res in *.

Section Allocator.

Import EEPROMMap.

Implicit Types (self : MenuNode) (m : EEPROMMap.t) (key : string).

(** The three outcomes of [auto_allocate], by the position of the cursor. *)
Lemma auto_allocate_exhausted key sz m :
  65535 <= _auto_index m ∨ 65535 < _auto_index m + sz →
  auto_allocate key sz m = (inl AddressSpaceExhausted, m).
Proof.
  intros H. unfold auto_allocate.
  destruct (_ || _) eqn:E; [done|].
  apply orb_false_iff in E as [E1 E2]. lia.
Qed.

Lemma auto_allocate_no_space key sz m :
  _auto_index m < 65535 → _auto_index m + sz <= 65535 →
  Z.min (varstore_bar m) (capacity m) <= _auto_index m
  ∨ Z.min (varstore_bar m) (capacity m) <= _auto_index m + sz →
  auto_allocate key sz m = (inl NoSpaceLeft, m).
Proof.
  intros H1 H2 H3. unfold auto_allocate.
  destruct (_ || _) eqn:E.
  { apply orb_true_iff in E as [E|E]; lia. }
  clear E. destruct (_ || _) eqn:E; [done|].
  apply orb_false_iff in E as [E1 E2]. lia.
Qed.

Lemma auto_allocate_ok key sz m :
  _auto_index m < 65535 → _auto_index m + sz <= 65535 →
  _auto_index m < Z.min (varstore_bar m) (capacity m) →
  _auto_index m + sz < Z.min (varstore_bar m) (capacity m) →
  auto_allocate key sz m =
    (inr {| offset := _auto_index m; size := sz |},
     {| data := <[ key := {| offset := _auto_index m; size := sz |} ]> (data m);
        _auto_index := _auto_index m + sz;
        capacity := capacity m;
        varstore_bar := varstore_bar m;
        spare_segments := spare_segments m |}).
Proof.
  intros H1 H2 H3 H4. unfold auto_allocate.
  destruct (_ || _) eqn:E.
  { apply orb_true_iff in E as [E|E]; lia. }
  clear E. destruct (_ || _) eqn:E; [|done].
  apply orb_true_iff in E as [E|E]; lia.
Qed.

(** Every call of [auto_allocate] falls in one of the three cases. *)
Lemma auto_allocate_cases key sz m :
  (auto_allocate key sz m = (inl AddressSpaceExhausted, m)
   ∧ (65535 <= _auto_index m ∨ 65535 < _auto_index m + sz))
  ∨ (auto_allocate key sz m = (inl NoSpaceLeft, m)
     ∧ _auto_index m < 65535 ∧ _auto_index m + sz <= 65535
     ∧ (Z.min (varstore_bar m) (capacity m) <= _auto_index m
        ∨ Z.min (varstore_bar m) (capacity m) <= _auto_index m + sz))
  ∨ (auto_allocate key sz m =
       (inr {| offset := _auto_index m; size := sz |},
        {| data := <[ key := {| offset := _auto_index m; size := sz |} ]> (data m);
           _auto_index := _auto_index m + sz;
           capacity := capacity m;
           varstore_bar := varstore_bar m;
           spare_segments := spare_segments m |})
     ∧ _auto_index m + sz <= 65535
     ∧ _auto_index m + sz < Z.min (varstore_bar m) (capacity m)).
Proof.
  destruct (decide (65535 <= _auto_index m ∨ 65535 < _auto_index m + sz)) as [H|H].
  { left. split; [by apply auto_allocate_exhausted|done]. }
  right.
  destruct (decide (Z.min (varstore_bar m) (capacity m) <= _auto_index m
                    ∨ Z.min (varstore_bar m) (capacity m) <= _auto_index m + sz)) as [H'|H'].
  - left. split; [apply auto_allocate_no_space; lia|]. lia.
  - right. split; [apply auto_allocate_ok; lia|]. lia.
Qed.

(** C1. Exhaustion boundary of [auto_allocate]: on a fresh map of capacity
    100 with no reserve, the cursor is 2 and the reserve boundary 100;
    allocating 98 bytes ends exactly at the boundary
    ([cursor + size = reserve_boundary], below the ceiling 65535), and the
    call raises the "No space left" error instead of succeeding, because the
    second test of [auto_allocate] is [offset+size >= max_space]. One byte
    less is accepted. *)
Theorem auto_allocate_exact_boundary_rejected :
  let m := __init__ 100 0 in
  _auto_index m + 98 = varstore_bar m
  ∧ _auto_index m + 98 <= capacity m
  ∧ auto_allocate "Level" 98 m = (inl NoSpaceLeft, m)
  ∧ fst (auto_allocate "Level" 97 m) = inr {| offset := 2; size := 97 |}.
Proof. vm_compute. done. Qed.

(** C10. Failure atomicity of [auto_allocate]: when it raises (either
    exhaustion error) the map is the one it was called on, cursor, entries
    and spare segments included; when it returns, the slot starts at the old
    cursor, the mapping is the old one with [key] bound to the slot, the
    cursor has advanced by [sz], and nothing else has changed. *)
Theorem auto_allocate_failure_atomic key sz m :
  match auto_allocate key sz m with
  | (inl e, m') => m' = m ∧ (e = AddressSpaceExhausted ∨ e = NoSpaceLeft)
  | (inr a, m') =>
      a = {| offset := _auto_index m; size := sz |}
      ∧ data m' = <[ key := a ]> (data m)
      ∧ _auto_index m' = _auto_index m + sz
      ∧ capacity m' = capacity m
      ∧ varstore_bar m' = varstore_bar m
      ∧ spare_segments m' = spare_segments m
  end.
Proof.
  destruct (auto_allocate_cases key sz m) as [[-> _]|[[-> _]|[-> _]]]; cbn; auto 10.
Qed.

Lemma contains_lookup key m o :
  data m !! key = Some o → contains key m = true.
Proof. intros H. unfold contains. apply bool_decide_eq_true. by exists o. Qed.

Lemma serializable_size self :
  serializable self = true →
  get_serialized_size self = inr 2 ∨ get_serialized_size self = inr 7
  ∨ get_serialized_size self = inr 1.
Proof. destruct self; cbn; intros; auto; discriminate. Qed.

(** The branch of [find_or_allocate_eeprom_space] taken on a recorded key. *)
Lemma find_recorded self m o sz :
  serializable self = true → persistent (base self) = true →
  data m !! generate_id (base self) = Some o →
  get_serialized_size self = inr sz →
  find_or_allocate_eeprom_space self m =
    if size o =? sz then (inr (offset o), m)
    else match auto_allocate (generate_id (base self)) sz
                 (delitem (generate_id (base self)) m) with
         | (inl e, m') => (inl e, m')
         | (inr a, m') => (inr (offset a), m')
         end.
Proof.
  intros Hs Hp Hl Hz. unfold find_or_allocate_eeprom_space. em_unfold.
  rewrite Hs, Hp, (contains_lookup _ _ _ Hl), Hl, Hz. cbn.
  destruct (size o =? sz); [done|].
  by destruct (auto_allocate _ _ _) as [[?|?] ?].
Qed.

(** On success [auto_allocate] binds the key to the slot it returns. *)
Lemma auto_allocate_inr key sz m a m' :
  auto_allocate key sz m = (inr a, m') →
  a = {| offset := _auto_index m; size := sz |}
  ∧ data m' = <[ key := a ]> (data m)
  ∧ _auto_index m' = _auto_index m + sz.
Proof.
  intros H.
  destruct (auto_allocate_cases key sz m) as [[E _]|[[E _]|[E _]]];
    rewrite E in H; inversion H; subst; cbn; auto.
Qed.

Lemma find_recorded_same_size self m o :
  persistent (base self) = true → serializable self = true →
  data m !! generate_id (base self) = Some o →
  get_serialized_size self = inr (size o) →
  find_or_allocate_eeprom_space self m = (inr (offset o), m).
Proof.
  intros Hp Hs Hl Hz.
  rewrite (find_recorded _ _ _ _ Hs Hp Hl Hz), Z.eqb_refl. done.
Qed.

(** The branch taken by a persistent node whose key is not recorded. *)
Lemma find_unrecorded self m sz :
  persistent (base self) = true →
  data m !! generate_id (base self) = None →
  get_serialized_size self = inr sz →
  find_or_allocate_eeprom_space self m =
    match auto_allocate (generate_id (base self)) sz m with
    | (inl e, m') => (inl e, m')
    | (inr a, m') => (inr (offset a), m')
    end.
Proof.
  intros Hp Hl Hz. unfold find_or_allocate_eeprom_space. em_unfold.
  rewrite Hp. unfold contains.
  rewrite bool_decide_eq_false_2 by (rewrite Hl; by intros [? ?]).
  rewrite andb_false_r, Hz.
  by destruct (auto_allocate _ _ _) as [[?|?] ?].
Qed.

(** C9. A node that is not persistent gets the sentinel address 0xFFFF and
    the storage map (mapping, cursor, capacity, reserve boundary, spare
    segments) is returned as it was, whatever it holds for the node's
    identifier. *)
Theorem find_or_allocate_not_persistent self m :
  persistent (base self) = false →
  find_or_allocate_eeprom_space self m = (inr 65535, m).
Proof.
  intros Hp. unfold find_or_allocate_eeprom_space. em_unfold.
  rewrite Hp, andb_false_r. done.
Qed.

(** C2. Stability: for a persistent, serializable node whose identifier is
    recorded in the map with the node's serialized size, the recorded offset
    is returned and the map (cursor included) is unchanged; a second call
    on the resulting map returns the same offset again. *)
Theorem find_or_allocate_stable self m o :
  persistent (base self) = true → serializable self = true →
  data m !! generate_id (base self) = Some o →
  get_serialized_size self = inr (size o) →
  find_or_allocate_eeprom_space self m = (inr (offset o), m)
  ∧ (let '(r1, m1) := find_or_allocate_eeprom_space self m in
     find_or_allocate_eeprom_space self m1 = (r1, m1) ∧ r1 = inr (offset o)).
Proof.
  intros Hp Hs Hl Hz.
  pose proof (find_recorded_same_size self m o Hp Hs Hl Hz) as E.
  split; [done|]. rewrite E. done.
Qed.

(** Two calls in a row agree also when the first one had to allocate. *)
Lemma find_or_allocate_twice self m off m1 :
  persistent (base self) = true → serializable self = true →
  find_or_allocate_eeprom_space self m = (inr off, m1) →
  find_or_allocate_eeprom_space self m1 = (inr off, m1).
Proof.
  intros Hp Hs H.
  assert (∃ sz, get_serialized_size self = inr sz) as [sz Hz].
  { destruct (serializable_size self Hs) as [?|[?|?]]; eauto. }
  assert (∀ m0 a, auto_allocate (generate_id (base self)) sz m0 = (inr a, m1) →
                  find_or_allocate_eeprom_space self m1 = (inr (offset a), m1)) as Hnew.
  { intros m0 a Ea. apply auto_allocate_inr in Ea as (-> & Hd & _). cbn.
    apply (find_recorded_same_size self m1 {| offset := _; size := sz |}); auto.
    rewrite Hd. apply lookup_insert_eq. }
  destruct (data m !! generate_id (base self)) as [o|] eqn:Hl.
  - rewrite (find_recorded _ _ _ _ Hs Hp Hl Hz) in H.
    destruct (size o =? sz) eqn:Heq.
    + inversion H; subst. apply Z.eqb_eq in Heq. subst sz.
      by apply find_recorded_same_size.
    + destruct (auto_allocate _ _ _) as [[e|a] m'] eqn:Ea; [discriminate|].
      inversion H; subst. eauto.
  - rewrite (find_unrecorded _ _ _ Hp Hl Hz) in H.
    destruct (auto_allocate _ _ _) as [[e|a] m'] eqn:Ea; [discriminate|].
    inversion H; subst. eauto.
Qed.

(** C3, as stated, fails: a recorded entry of size 0 that sits at the
    cursor ends at the cursor, so the invariant holds, and the slot
    allocated after its removal starts at the same offset. *)
Lemma size_change_offset_may_coincide :
  ¬ (∀ self m o sz,
       persistent (base self) = true → serializable self = true →
       data m !! generate_id (base self) = Some o →
       get_serialized_size self = inr sz → size o ≠ sz →
       entries_below_cursor m →
       ∀ off m', find_or_allocate_eeprom_space self m = (inr off, m') →
                 off ≠ offset o).
Proof.
  intros H.
  pose (b := {| _global_index := 1; id_ := None; id_suffix := None; name := "Level";
                persistent := true; read_only := false; local_only := false;
                visible := true; callback := None |}).
  pose (m := {| data := <[ "Level" := {| offset := 2; size := 0 |} ]>
                          {[ "_reserved" := {| offset := 0; size := 2 |} ]};
                _auto_index := 2; capacity := 100; varstore_bar := 100;
                spare_segments := ∅ |}).
  apply (H (AnalogType b 255 0 1 None) m {| offset := 2; size := 0 |} 2
           eq_refl eq_refl eq_refl eq_refl) with (off := 2)
           (m' := snd (find_or_allocate_eeprom_space (AnalogType b 255 0 1 None) m)).
  - cbn. lia.
  - unfold entries_below_cursor. cbn.
    apply map_Forall_insert_2; [cbn; lia|].
    apply map_Forall_singleton. cbn. lia.
  - vm_compute. done.
  - done.
Qed.

(** C3, amended. Size-change reallocation: for a persistent, serializable
    node whose identifier is recorded with a size other than its serialized
    size, [find_or_allocate_eeprom_space] deletes the recorded entry and
    runs [auto_allocate] for the same key on the map without it. The
    allocation goes through exactly when the new slot ends at or below
    65535 and strictly below [min(varstore_bar, capacity)]; the slot then
    starts at the old cursor and is recorded under the key. When moreover
    the stale entry has a positive size and every recorded entry ends at or
    below the cursor, the offset returned differs from the stale one. When
    the allocation fails, the stale entry is gone all the same. *)
Theorem find_or_allocate_size_change self m o sz :
  persistent (base self) = true → serializable self = true →
  data m !! generate_id (base self) = Some o →
  get_serialized_size self = inr sz → size o ≠ sz →
  entries_below_cursor m → 0 < size o →
  let key := generate_id (base self) in
  find_or_allocate_eeprom_space self m =
    match auto_allocate key sz (delitem key m) with
    | (inl e, m') => (inl e, m')
    | (inr a, m') => (inr (offset a), m')
    end
  ∧ match find_or_allocate_eeprom_space self m with
    | (inr off, m') =>
        off = _auto_index m ∧ off ≠ offset o
        ∧ data m' = <[ key := {| offset := off; size := sz |} ]> (delete key (data m))
        ∧ _auto_index m' = _auto_index m + sz
        ∧ _auto_index m + sz <= 65535
        ∧ _auto_index m + sz < Z.min (varstore_bar m) (capacity m)
    | (inl e, m') =>
        m' = delitem key m ∧ data m' !! key = None
        ∧ (e = AddressSpaceExhausted ∨ e = NoSpaceLeft)
        ∧ ¬ (_auto_index m + sz <= 65535
             ∧ _auto_index m + sz < Z.min (varstore_bar m) (capacity m))
    end.
Proof.
  intros Hp Hs Hl Hz Hne Hinv Hpos key.
  assert (0 < sz) as Hsz.
  { destruct (serializable_size self Hs) as [E|[E|E]]; rewrite E in Hz;
      inversion Hz; lia. }
  assert (offset o + size o <= _auto_index m) as Hend by exact (Hinv _ _ Hl).
  rewrite (find_recorded _ _ _ _ Hs Hp Hl Hz).
  rewrite (proj2 (Z.eqb_neq _ _) Hne). fold key.
  split; [done|].
  destruct (auto_allocate_cases key sz (delitem key m)) as [[E C]|[[E C]|[E C]]];
    rewrite E; cbn in *.
  - repeat split; auto. { apply lookup_delete_eq. } lia.
  - repeat split; auto. { apply lookup_delete_eq. } lia.
  - repeat split; auto; lia.
Qed.

Lemma example_map_below_cursor key off sz cursor :
  2 <= cursor → off + sz <= cursor → entries_below_cursor (example_map key off sz cursor).
Proof.
  intros H1 H2. unfold entries_below_cursor. cbn.
  apply map_Forall_insert_2; [cbn; lia|].
  apply map_Forall_singleton. cbn. lia.
Qed.

Lemma find_or_allocate_not_persistent_witness :
  find_or_allocate_eeprom_space reset_node (example_map "Reset" 2 1 3)
  = (inr 65535, example_map "Reset" 2 1 3).
Proof.
  apply (find_or_allocate_not_persistent reset_node (example_map "Reset" 2 1 3)).
  reflexivity.
Defined.

Lemma find_or_allocate_stable_witness :
  find_or_allocate_eeprom_space enable_node (example_map "Enable" 2 1 3)
  = (inr 2, example_map "Enable" 2 1 3).
Proof.
  apply (find_or_allocate_stable enable_node (example_map "Enable" 2 1 3)
           {| offset := 2; size := 1 |}); reflexivity.
Defined.

Lemma find_or_allocate_size_change_witness :
  ∃ m', find_or_allocate_eeprom_space level_node (example_map "Level" 2 1 3) = (inr 3, m')
        ∧ data m' !! "Level" = Some {| offset := 3; size := 2 |}
        ∧ _auto_index m' = 5.
Proof.
  destruct (find_or_allocate_size_change level_node (example_map "Level" 2 1 3)
              {| offset := 2; size := 1 |} 2) as [_ H].
  - reflexivity.
  - reflexivity.
  - reflexivity.
  - reflexivity.
  - cbn. lia.
  - apply example_map_below_cursor; lia.
  - cbn. lia.
  - destruct (find_or_allocate_eeprom_space level_node (example_map "Level" 2 1 3))
      as [[e|off] m'] eqn:E.
    + exfalso. vm_compute in E. discriminate E.
    + destruct H as (Hoff & _ & Hd & Hi & _). cbn in Hoff. subst off.
      exists m'. split; [reflexivity|]. split.
      * rewrite Hd. apply lookup_insert_eq.
      * rewrite Hi. reflexivity.
Defined.

End Allocator.

(** ** Saving and loading the map *)

Section RoundTrip.

Import EEPROMMap.

Context {File : Type} (yaml_dump : YamlDoc → File) (yaml_load : File → YamlDoc).

(** What is asked of PyYAML: a dumped mapping is read back as it was. *)
Hypothesis yaml_load_dump : ∀ d, yaml_load (yaml_dump d) = d.

(** The 'spare-segments' key is left out of the file for an empty
    dictionary, and [load] then keeps the empty one of the fresh object. *)
Lemma spare_segments_restored (segs : gmap string Z) :
  match (if bool_decide (stdpp.base.size segs ≠ 0%nat) then Some segs else None) with
  | Some s => s ∪ ∅
  | None => ∅
  end = segs.
Proof.
  case_bool_decide as H.
  - apply (right_id_L ∅ (∪)).
  - symmetry. apply map_size_empty_inv.
    first [exact H | by apply dec_stable].
Qed.

(** C6. Round trip: loading what [save] wrote gives back the map it was
    called on: capacity, reserve boundary, cursor, the whole mapping (the
    reserved slot as any other entry) and the spare segments. *)
Theorem load_save_roundtrip (m : EEPROMMap.t) :
  load yaml_load (save yaml_dump m) = inr m.
Proof.
  unfold load, save. rewrite yaml_load_dump. cbn.
  destruct m as [d i c v segs]. cbn. f_equal. f_equal.
  - apply (right_id_L ∅ (∪)).
  - apply spare_segments_restored.
Qed.

End RoundTrip.

Lemma load_save_roundtrip_witness :
  EEPROMMap.load id (EEPROMMap.save id (example_map "Level" 2 2 4))
  = inr (example_map "Level" 2 2 4)
  ∧ EEPROMMap.load id (EEPROMMap.save id (example_map_with_spare "Level" 2 2 4))
    = inr (example_map_with_spare "Level" 2 2 4).
Proof.
  split; apply (load_save_roundtrip (File := EEPROMMap.YamlDoc) id id);
    intros d; reflexivity.
Defined.

(** ** Identifier derivation *)

Section Identifiers.

Lemma str_app_nil_l (s : string) : "" +:+ s = s.
Proof. reflexivity. Qed.

Lemma str_app_cons (c : ascii) (s t : string) : String c s +:+ t = String c (s +:+ t).
Proof. reflexivity. Qed.

Lemma str_app_nil_r (s : string) : s +:+ "" = s.
Proof. induction s as [|c s IH]; [done|]. by rewrite str_app_cons, IH. Qed.

Lemma str_app_assoc (s t u : string) : (s +:+ t) +:+ u = s +:+ (t +:+ u).
Proof. induction s as [|c s IH]; [done|]. by rewrite !str_app_cons, IH. Qed.

Lemma join_cons (w : string) (ws : list string) : join (w :: ws) = w +:+ join ws.
Proof.
  unfold join. destruct ws as [|w' ws]; cbn [concat].
  - by rewrite str_app_nil_r.
  - reflexivity.
Qed.

(** The class [[\W_]] holds exactly the characters that are not
    alphanumeric. *)
Lemma autoid_delim_not_alnum (c : ascii) : autoid_delim c = negb (isalnum c).
Proof.
  unfold autoid_delim, isalnum, is_ascii_upper, is_ascii_lower, is_ascii_digit.
  destruct (code c =? 95) eqn:E.
  - apply Z.eqb_eq in E. rewrite E. reflexivity.
  - by rewrite !orb_false_r.
Qed.

(** [re.split] never returns an empty list. *)
Lemma re_split_from_cons (b : bool) (s : string) :
  ∃ w ws, re_split_from b s = w :: ws.
Proof.
  revert b. induction s as [|c s IH]; intros b; cbn; [eauto|].
  destruct (autoid_delim c).
  - destruct b; [apply IH | eauto].
  - destruct (IH false) as (w & ws & ->). eauto.
Qed.

(** After a delimiter the split differs only by the empty piece in front. *)
Lemma re_split_from_true (s : string) :
  filter nonempty (re_split_from true s) = filter nonempty (re_split_from false s).
Proof.
  destruct s as [|c s]; cbn; [done|].
  destruct (autoid_delim c); [|done].
  reflexivity.
Qed.

Lemma flush_word_filter (w : string) : flush_word w = filter nonempty [w].
Proof. destruct w; reflexivity. Qed.

(** The words of the specification are the non-empty pieces of the split,
    the run read so far being glued to the first piece. *)
Lemma spec_words_from_split (cur s : string) :
  ∀ w ws, re_split_from false s = w :: ws →
          spec_words_from cur s = flush_word (cur +:+ w) ++ filter nonempty ws.
Proof.
  revert cur. induction s as [|c s IH]; intros cur w ws H; cbn in H |- *.
  - inversion H; subst. rewrite str_app_nil_r. cbn. by rewrite app_nil_r.
  - rewrite autoid_delim_not_alnum in H. destruct (isalnum c); cbn in H.
    + destruct (re_split_from_cons false s) as (w' & ws' & E).
      rewrite E in H. inversion H; subst.
      rewrite (IH _ _ _ E). rewrite str_app_assoc. reflexivity.
    + inversion H; subst. rewrite str_app_nil_r. f_equal.
      rewrite re_split_from_true.
      destruct (re_split_from_cons false s) as (w' & ws' & E).
      rewrite (IH _ _ _ E), E, str_app_nil_l.
      rewrite flush_word_filter. by rewrite <- filter_app.
Qed.

Lemma spec_words_split (s : string) :
  spec_words s = filter nonempty (RE_AUTOID_DELIM_split s).
Proof.
  unfold spec_words, RE_AUTOID_DELIM_split.
  destruct (re_split_from_cons false s) as (w & ws & E).
  rewrite (spec_words_from_split _ _ _ _ E), E, str_app_nil_l.
  rewrite flush_word_filter. by rewrite <- filter_app.
Qed.

(** Empty pieces add nothing to the joined identifier. *)
Lemma join_capitalize_filter (l : list string) :
  join (map capitalize (filter nonempty l)) = join (map capitalize l).
Proof.
  induction l as [|w l IH]; [done|].
  destruct w as [|c w].
  - change (filter nonempty ("" :: l)) with (filter nonempty l).
    rewrite IH. cbn [map capitalize]. by rewrite join_cons, str_app_nil_l.
  - change (filter nonempty (String c w :: l)) with (String c w :: filter nonempty l).
    cbn [map]. by rewrite !join_cons, IH.
Qed.











End Identifiers.

(** ** The callback overlap check *)

Section Callbacks.

Implicit Types (l : list (string * string)) (seen : gmap string string)
  (bufcb : list CbProto).

Lemma do_codegen_callbacks_cons kind cb_ref l seen bufcb :
  seen !! cb_ref = None →
  ∃ bufcb1, do_codegen_callbacks ((kind, cb_ref) :: l) seen bufcb
            = do_codegen_callbacks l (<[ cb_ref := kind ]> seen) bufcb1.
Proof.
  intros Hn. cbn. rewrite bool_decide_eq_false_2 by (rewrite Hn; by intros [? ?]).
  em_unfold. repeat case_bool_decide; eauto.
Qed.

(** The loop goes through on names that are pairwise distinct and new. *)
Lemma do_codegen_callbacks_ok l seen bufcb :
  NoDup (l.*2) → (∀ x, x ∈ l → seen !! x.2 = None) →
  ∃ bufcb', do_codegen_callbacks l seen bufcb = (inr (), bufcb').
Proof.
  revert seen bufcb. induction l as [|[kind cb_ref] l IH]; intros seen bufcb Hnd Hnew.
  { cbn. em_unfold. eauto. }
  apply NoDup_cons in Hnd as [Hnotin Hnd].
  destruct (do_codegen_callbacks_cons kind cb_ref l seen bufcb) as [bufcb1 ->].
  { apply (Hnew (kind, cb_ref)). left. }
  apply IH; [done|]. intros x Hx.
  rewrite lookup_insert_ne.
  - apply Hnew. by right.
  - intros ->. apply Hnotin. apply list_elem_of_fmap. by exists x.
Qed.

(** It raises only the conflict error, for a name met a second time. *)
Lemma do_codegen_callbacks_raises l seen bufcb e bufcb' :
  do_codegen_callbacks l seen bufcb = (inl e, bufcb') →
  ∃ cb_ref, e = conflict_error cb_ref
    ∧ (is_Some (seen !! cb_ref) ∧ cb_ref ∈ l.*2
       ∨ ∃ (i j : nat) kind1 kind2,
           (i < j)%nat ∧ l !! i = Some (kind1, cb_ref) ∧ l !! j = Some (kind2, cb_ref)).
Proof.
  revert seen bufcb. induction l as [|[kind cb_ref] l IH]; intros seen bufcb H.
  { cbn in H. em_unfold. discriminate. }
  destruct (seen !! cb_ref) as [k|] eqn:Hs.
  - cbn in H. rewrite bool_decide_eq_true_2 in H by (rewrite Hs; eauto).
    em_unfold. inversion H; subst. exists cb_ref. split; [done|]. left.
    split; [rewrite Hs; eauto|]. cbn. left.
  - destruct (do_codegen_callbacks_cons kind cb_ref l seen bufcb Hs) as [bufcb1 E].
    rewrite E in H. apply IH in H as (c & -> & [[Hsome Hin]|Htwice]).
    + exists c. split; [done|].
      destruct (decide (cb_ref = c)) as [->|Hne].
      * right. apply list_elem_of_fmap in Hin as ([k2 c2] & Hc & Hin). cbn in Hc. subst c2.
        apply list_elem_of_lookup in Hin as [j Hj].
        exists 0%nat, (S j), kind, k2. split; [lia|]. split; [done|]. done.
      * left. rewrite lookup_insert_ne in Hsome by done. split; [done|].
        cbn. by right.
    + destruct Htwice as (i & j & k1 & k2 & Hlt & Hi & Hj).
      exists c. split; [done|]. right.
      exists (S i), (S j), k1, k2. split; [lia|]. done.
Qed.

(** When it returns, the names were pairwise distinct and new. *)
Lemma do_codegen_callbacks_returns l seen bufcb bufcb' :
  do_codegen_callbacks l seen bufcb = (inr (), bufcb') →
  NoDup (l.*2) ∧ (∀ x, x ∈ l → seen !! x.2 = None).
Proof.
  revert seen bufcb. induction l as [|[kind cb_ref] l IH]; intros seen bufcb H.
  { split; [constructor|]. intros x Hx. by apply elem_of_nil in Hx. }
  destruct (seen !! cb_ref) as [k|] eqn:Hs.
  { cbn in H. rewrite bool_decide_eq_true_2 in H by (rewrite Hs; eauto).
    em_unfold. discriminate. }
  destruct (do_codegen_callbacks_cons kind cb_ref l seen bufcb Hs) as [bufcb1 E].
  rewrite E in H. apply IH in H as [Hnd Hnew].
  assert (∀ x, x ∈ l → x.2 ≠ cb_ref) as Hfresh.
  { intros x Hx Heq. specialize (Hnew x Hx). rewrite Heq, lookup_insert_eq in Hnew.
    discriminate. }
  split.
  - cbn. apply NoDup_cons. split; [|done].
    intros ([k2 c2] & Hc & Hin)%list_elem_of_fmap. cbn in Hc. subst c2.
    by apply (Hfresh _ Hin).
  - intros x [->|Hx]%elem_of_cons; [done|].
    specialize (Hnew x Hx). rewrite lookup_insert_ne in Hnew; [done|].
    intros Heq. by apply (Hfresh _ Hx).
Qed.

Lemma prefix_app (s t : string) : String.prefix s (s +:+ t) = true.
Proof.
  induction s as [|c s IH]; [by destruct t|].
  rewrite str_app_cons. cbn. by destruct (ascii_dec c c).
Qed.

Lemma str_contains_app (pre s post : string) : str_contains s (pre +:+ s +:+ post) = true.
Proof.
  induction pre as [|c pre IH].
  - rewrite str_app_nil_l.
    assert (∀ hay, String.prefix s hay = true → str_contains s hay = true) as H.
    { intros hay Hp. destruct hay; cbn [str_contains]; rewrite Hp; done. }
    apply H, prefix_app.
  - rewrite str_app_cons. cbn [str_contains]. rewrite IH. apply orb_true_r.
Qed.

(** The message of the conflict error holds the callback name. *)
Lemma conflict_error_names cb_ref : exn_names (conflict_error cb_ref) cb_ref = true.
Proof. apply str_contains_app. Qed.

(** An enumeration of a set in which no name has two kinds has pairwise
    distinct names. *)
Lemma enumeration_names_distinct (callback_list : gset (string * string)) l :
  l ≡ₚ elements callback_list → ¬ callback_conflict callback_list → NoDup (l.*2).
Proof.
  intros Hperm Hno. apply NoDup_fmap_2_strong.
  - intros [k1 c1] [k2 c2] H1 H2 Hc. cbn in Hc. subst c2.
    destruct (decide (k1 = k2)) as [->|Hne]; [done|].
    exfalso. apply Hno. exists c1, k1, k2.
    rewrite Hperm in H1, H2. by rewrite !elem_of_elements in H1, H2.
  - rewrite Hperm. apply NoDup_elements.
Qed.

(** Two entries of an enumeration that share their name differ in kind. *)
Lemma enumeration_same_name (callback_list : gset (string * string)) l
    (i j : nat) kind1 kind2 cb_ref :
  l ≡ₚ elements callback_list → (i < j)%nat →
  l !! i = Some (kind1, cb_ref) → l !! j = Some (kind2, cb_ref) →
  kind1 ≠ kind2 ∧ (kind1, cb_ref) ∈ callback_list ∧ (kind2, cb_ref) ∈ callback_list.
Proof.
  intros Hperm Hlt Hi Hj.
  assert (NoDup l) as Hnd by (rewrite Hperm; apply NoDup_elements).
  split.
  - intros ->. pose proof (NoDup_lookup _ _ _ _ Hnd Hi Hj). lia.
  - rewrite <- !elem_of_elements, <- Hperm.
    split; eapply list_elem_of_lookup_2; eauto.
Qed.

(** C7, as stated, fails: for a tree that registers "shared" once as a
    value-changed callback and once as a render function, the check raises
    in either order of the two pairs, and the error carries the callback
    name but neither of the two kinds. *)
Lemma callback_conflict_error_omits_kinds :
  let callback_list := callback_list_of [gain_node "shared"; mode_node "shared"] in
  let e := conflict_error "shared" in
  callback_list = {[ ("on_change", "shared"); ("on_render", "shared") ]}
  ∧ fst (do_codegen_callbacks [("on_change", "shared"); ("on_render", "shared")] ∅ [])
    = inl e
  ∧ fst (do_codegen_callbacks [("on_render", "shared"); ("on_change", "shared")] ∅ [])
    = inl e
  ∧ exn_names e "shared" = true
  ∧ ¬ (exn_names e "on_change" = true ∧ exn_names e "on_render" = true).
Proof.
  cbn zeta. split; [|split; [|split; [|split]]].
  - unfold callback_list_of. cbn. set_solver.
  - reflexivity.
  - reflexivity.
  - reflexivity.
  - vm_compute. intros [? _]. discriminate.
Qed.

(** C7, amended. Callback conflict detection: over the set of
    (event kind, callback name) pairs accumulated from the whole tree,
    enumerated in any order, the check raises exactly when some callback
    name appears under two different event kinds; the error is the
    [RuntimeError] whose message names that callback (and no kind). A pair
    given by several nodes is in the set once and does not make it
    raise. *)
Theorem callback_overlap_check_conflict (desc_items : list MenuNode) l bufcb :
  l ≡ₚ elements (callback_list_of desc_items) →
  (callback_conflict (callback_list_of desc_items) →
   ∃ cb_ref kind1 kind2 bufcb',
     kind1 ≠ kind2
     ∧ (kind1, cb_ref) ∈ callback_list_of desc_items
     ∧ (kind2, cb_ref) ∈ callback_list_of desc_items
     ∧ do_codegen_callbacks l ∅ bufcb = (inl (conflict_error cb_ref), bufcb')
     ∧ exn_names (conflict_error cb_ref) cb_ref = true)
  ∧ (¬ callback_conflict (callback_list_of desc_items) →
     ∃ bufcb', do_codegen_callbacks l ∅ bufcb = (inr (), bufcb')).
Proof.
  intros Hperm. split.
  - intros (c & k1 & k2 & Hne & H1 & H2).
    destruct (do_codegen_callbacks l ∅ bufcb) as [[e|[]] bufcb'] eqn:E.
    + apply do_codegen_callbacks_raises in E as (cb_ref & -> & [[Hs _]|Htwice]).
      { rewrite lookup_empty in Hs. by destruct Hs. }
      destruct Htwice as (i & j & kind1 & kind2 & Hlt & Hi & Hj).
      destruct (enumeration_same_name _ _ _ _ _ _ _ Hperm Hlt Hi Hj) as (? & ? & ?).
      exists cb_ref, kind1, kind2, bufcb'.
      repeat split; auto using conflict_error_names.
    + exfalso. apply do_codegen_callbacks_returns in E as [Hnd _].
      rewrite <- !elem_of_elements, <- Hperm in H1, H2.
      apply list_elem_of_lookup in H1 as [i Hi], H2 as [j Hj].
      assert (i = j) as ->.
      { eapply (NoDup_lookup _ _ _ c Hnd); rewrite list_lookup_fmap.
        - by rewrite Hi.
        - by rewrite Hj. }
      rewrite Hi in Hj. by inversion Hj.
  - intros Hno. apply do_codegen_callbacks_ok.
    + by eapply enumeration_names_distinct.
    + intros x _. apply lookup_empty.
Qed.

Lemma callback_overlap_check_conflict_witness :
  (∃ bufcb', do_codegen_callbacks
               (elements (callback_list_of [gain_node "onGain"; mute_node "onGain"])) ∅ []
             = (inr (), bufcb'))
  ∧ (∃ cb_ref bufcb',
       do_codegen_callbacks
         (elements (callback_list_of [gain_node "shared"; mode_node "shared"])) ∅ []
       = (inl (conflict_error cb_ref), bufcb')).
Proof.
  split.
  - apply (callback_overlap_check_conflict [gain_node "onGain"; mute_node "onGain"]);
      [reflexivity|].
    intros (c & k1 & k2 & Hne & H1 & H2). apply Hne.
    unfold callback_list_of in H1, H2. cbn in H1, H2.
    rewrite !elem_of_union, !elem_of_singleton in H1, H2.
    destruct H1 as [[H1|H1]|H1], H2 as [[H2|H2]|H2];
      try (by apply elem_of_empty in H1); try (by apply elem_of_empty in H2); congruence.
  - destruct (callback_overlap_check_conflict [gain_node "shared"; mode_node "shared"]
                (elements (callback_list_of [gain_node "shared"; mode_node "shared"])) [])
      as [H _]; [reflexivity|].
    destruct H as (c & k1 & k2 & buf & _ & _ & _ & E & _).
    + exists "shared", "on_change", "on_render".
      unfold callback_list_of. cbn. split; [discriminate|]. set_solver.
    + exists c, buf. exact E.
Defined.

End Callbacks.

(** ** The emitter traversal *)

Section Emitter.

Import EEPROMMap.

(** Induction on menu trees, with the property known for the items of a
    sub-menu. *)
Lemma MenuNode_nested_ind (P : MenuNode → Prop) :
  (∀ n, match n with SubMenuType _ _ _ => True | _ => P n end) →
  (∀ b items auth, Forall P items → P (SubMenuType b items auth)) →
  ∀ n, P n.
Proof.
  intros Hleaf Hsub. fix IH 1. intros n.
  destruct n as [b ? ? ? ?|b ? ? ?|b ?|b ?|b ? ? ? ?|b ?|b items auth|b];
    lazymatch goal with |- P ?n => first [exact (Hleaf n) | idtac] end.
  apply Hsub. induction items as [|x items IHitems]; constructor.
  - apply IH.
  - exact IHitems.
Qed.

(** *** The map effect does not depend on the context *)


Lemma same_map_effect_ret {A1 A2} (a1 : A1) (a2 : A2) st1 st2 :
  eeprom_map st1 = eeprom_map st2 →
  same_map_effect (mret (M := EM EmitState) a1 st1) (mret (M := EM EmitState) a2 st2).
Proof. intros H. split; cbn; done. Qed.

Lemma same_map_effect_raise {A1 A2} e st1 st2 :
  eeprom_map st1 = eeprom_map st2 →
  same_map_effect (raise (A := A1) e st1) (raise (A := A2) e st2).
Proof. intros H. split; cbn; done. Qed.

Lemma same_map_effect_write_src x1 x2 st1 st2 :
  eeprom_map st1 = eeprom_map st2 →
  same_map_effect (write_src x1 st1) (write_src x2 st2).
Proof. intros H. split; cbn; done. Qed.

Lemma same_map_effect_write_hdr x1 x2 st1 st2 :
  eeprom_map st1 = eeprom_map st2 →
  same_map_effect (write_hdr x1 st1) (write_hdr x2 st2).
Proof. intros H. split; cbn; done. Qed.

Lemma same_map_effect_on_map {A} (c : EM EEPROMMap.t A) st1 st2 :
  eeprom_map st1 = eeprom_map st2 →
  same_map_effect (on_eeprom_map c st1) (on_eeprom_map c st2).
Proof.
  intros H. unfold on_eeprom_map. rewrite H.
  destruct (c (eeprom_map st2)) as [[e|a] m]; split; cbn; done.
Qed.

Create HintDb map_effect.

#[local] Hint Resolve same_map_effect_ret same_map_effect_raise same_map_effect_write_src
  same_map_effect_write_hdr same_map_effect_on_map : map_effect.







(** *** The key touched by [find_or_allocate_eeprom_space] *)





(** *** What the emitter helpers write *)

Lemma emit_simple_static_run self ctx me mie p pm nen st :
  emit_simple_static_menu_item self ctx me mie p pm nen st =
    match find_or_allocate_eeprom_space self (eeprom_map st) with
    | (inl e, m') =>
        (inl e, {| bufsrc := bufsrc st; bufhdr := bufhdr st; eeprom_map := m' |})
    | (inr eeprom_offset, m') =>
        let ns_id := ns_id_of (namespace ctx) in
        let next_ns_id := match nen with None => ns_id | Some ns => ns_id_of ns end in
        let minfo_name := "minfo" +:+ ns_id +:+ generate_id (base self) in
        let prefix := default (cpp_type_prefix self) p in
        (inr (symbol_of (namespace ctx) self),
         {| bufsrc := (bufsrc st
                       ++ [SInfo minfo_name (default prefix pm +:+ "MenuInfo") (use_pgmspace ctx)
                             ([VStr (name (base self)); VInt (_global_index (base self));
                               VHex eeprom_offset] ++ me)])
                      ++ [SItem (symbol_of (namespace ctx) self) (prefix +:+ "MenuItem")
                            ([VRef minfo_name] ++ mie
                             ++ [next_name_ref next_ns_id (next_entry ctx)])];
            bufhdr := bufhdr st ++ [HExtern (symbol_of (namespace ctx) self)
                                      (prefix +:+ "MenuItem")];
            eeprom_map := m' |})
    end.
Proof.
  unfold emit_simple_static_menu_item, on_eeprom_map, write_src, write_hdr. em_unfold.
  by destruct (find_or_allocate_eeprom_space self (eeprom_map st)) as [[e|off] m'].
Qed.

Lemma emit_simple_dynamic_run self ctx mie np p rp order nen cc st :
  emit_simple_dynamic_menu_item self ctx mie np p rp order nen cc st =
    match find_or_allocate_eeprom_space self (eeprom_map st) with
    | (inl e, m') =>
        (inl e, {| bufsrc := bufsrc st; bufhdr := bufhdr st; eeprom_map := m' |})
    | (inr eeprom_offset, m') =>
        let ns_id := ns_id_of (namespace ctx) in
        let next_ns_id := match nen with None => ns_id | Some ns => ns_id_of ns end in
        let menu_name := "menu" +:+ default "" np +:+ ns_id +:+ generate_id (base self) in
        let render_callback_name :=
          default ("fn" +:+ ns_id +:+ generate_id (base self) +:+ "RtCall") cc in
        let menu_type := default (cpp_type_prefix self) p +:+ "MenuItem" in
        let menu_item_first :=
          match order with
          | after_callback => [VTok render_callback_name; VInt (_global_index (base self))]
          | first => [VInt (_global_index (base self)); VTok render_callback_name]
          | na => [VTok render_callback_name]
          end in
        (inr menu_name,
         {| bufsrc := (bufsrc st
                       ++ match cc with
                          | None =>
                              [SRenderCallback
                                 [VTok render_callback_name;
                                  VTok (default (render_callback_parent self) rp);
                                  VStr (name (base self)); VHex eeprom_offset;
                                  VTok (get_callback_ref (base self))]]
                          | Some _ => []
                          end)
                      ++ [SItem menu_name menu_type
                            (menu_item_first ++ mie
                             ++ [next_name_ref next_ns_id (next_entry ctx)])];
            bufhdr := bufhdr st ++ [HExtern menu_name menu_type];
            eeprom_map := m' |})
    end.
Proof.
  unfold emit_simple_dynamic_menu_item, on_eeprom_map, write_src, write_hdr. em_unfold.
  destruct (find_or_allocate_eeprom_space self (eeprom_map st)) as [[e|off] m']; [done|].
  destruct cc; cbn; by rewrite ?app_nil_r.
Qed.

Lemma emit_enum_strs_run enum_name pg i options st :
  ∃ stmts, emit_enum_strs enum_name pg i options st =
           (inr (), {| bufsrc := bufsrc st ++ stmts; bufhdr := bufhdr st;
                       eeprom_map := eeprom_map st |}).
Proof.
  revert i st. induction options as [|o options IH]; intros i st; cbn.
  - exists []. rewrite app_nil_r. by destruct st.
  - unfold write_src. em_unfold. destruct (IH (S i)
      {| bufsrc := bufsrc st ++ [SEnumStr enum_name i pg o]; bufhdr := bufhdr st;
         eeprom_map := eeprom_map st |}) as [stmts ->].
    cbn. exists (SEnumStr enum_name i pg o :: stmts). by rewrite <- app_assoc.
Qed.

(** The loop over the items returns exactly when the items have been
    emitted one after the other. *)
Lemma emit_items_emitted ns pg items st st' :
  emit_items emit_code ns pg items st = (inr (), st') ↔ items_emitted ns pg items st st'.
Proof.
  revert st. induction items as [|x items IH]; intros st; cbn.
  - em_unfold. split.
    + intros H. inversion H. constructor.
    + intros H. by inversion H.
  - em_unfold. split.
    + destruct (emit_code x _ st) as [[e|[]] st1] eqn:E; [done|].
      intros H. econstructor; [exact E|]. by apply IH.
    + intros H. inversion H as [|? ? ? st1 ? E Hrest]; subst.
      rewrite E. by apply IH.
Qed.

(** *** Sub-menus *)

(** A sub-menu is not serializable: it has no slot, and asking for one
    when it is marked persistent raises. *)
Lemma find_or_allocate_submenu b items auth m :
  find_or_allocate_eeprom_space (SubMenuType b items auth) m =
    if persistent b then (inl (ValueError "SubMenuType is not serializable"), m)
    else (inr 65535, m).
Proof.
  unfold find_or_allocate_eeprom_space. em_unfold. cbn.
  by destruct (persistent b).
Qed.

Lemma emit_code_submenu_run b items auth ctx st :
  let self := SubMenuType b items auth in
  emit_code self ctx st =
    match emit_items emit_code (namespace ctx ++ [self]) (use_pgmspace ctx) items st with
    | (inl e, st1) => (inl e, st1)
    | (inr _, st1) =>
        match items with
        | [] => (inl IndexError, st1)
        | items_0 :: _ =>
            if persistent b then (inl (ValueError "SubMenuType is not serializable"), st1)
            else (inr (),
                  {| bufsrc := bufsrc st1 ++ submenu_tail_src self ctx items_0;
                     bufhdr := bufhdr st1 ++ submenu_tail_hdr self ctx;
                     eeprom_map := eeprom_map st1 |})
        end
    end.
Proof.
  intros self. unfold self at 1. cbn [emit_code]. fold self.
  unfold mbind at 1. unfold EM_bind at 1.
  destruct (emit_items emit_code _ _ items st) as [[e|[]] st1]; [done|].
  destruct items as [|items_0 rest]; [done|].
  unfold mbind at 1. unfold EM_bind at 1. unfold mret at 1. unfold EM_ret at 1.
  unfold mbind at 1. unfold EM_bind at 1.
  rewrite emit_simple_dynamic_run. unfold self at 1.
  rewrite find_or_allocate_submenu.
  destruct (persistent b) eqn:Hp; [by destruct st1|]. fold self.
  unfold mbind at 1. unfold EM_bind at 1.
  rewrite emit_simple_static_run. cbn [eeprom_map]. unfold self at 1.
  rewrite find_or_allocate_submenu, Hp. fold self.
  unfold mret, EM_ret. cbn [bufsrc bufhdr eeprom_map].
  rewrite <- !app_assoc. reflexivity.
Qed.

(** Closes a goal [∃ stmts type_ args, new = old ++ stmts ∧ last stmts = Some (SItem _ type_ args)]. *)
Ltac symbol_defined :=
  eexists _, _, _; split;
  [ rewrite <- ?app_assoc; reflexivity
  | rewrite ?app_assoc; first [apply last_snoc | reflexivity] ].

Lemma items_append_src (items : list MenuNode) ns pg :
  Forall (λ n, ∀ ctx st st', emit_code n ctx st = (inr (), st') →
               ∃ stmts, bufsrc st' = bufsrc st ++ stmts) items →
  ∀ st st', items_emitted ns pg items st st' → ∃ stmts, bufsrc st' = bufsrc st ++ stmts.
Proof.
  induction 1 as [|x items Hx _ IH]; intros st st' H; inversion H; subst.
  - exists []. by rewrite app_nil_r.
  - match goal with E : emit_code x _ st = _ |- _ => apply Hx in E as [s1 E1] end.
    match goal with R : items_emitted _ _ items _ _ |- _ => apply IH in R as [s2 E2] end.
    exists (s1 ++ s2). by rewrite E2, E1, app_assoc.
Qed.

(** Every entry that is emitted ends with the definition of its menu item
    under [symbol_of], and what was in the source before stays in front. *)
Lemma emit_code_defines_symbol self :
  ∀ ctx st st', emit_code self ctx st = (inr (), st') →
  ∃ stmts type_ args,
    bufsrc st' = bufsrc st ++ stmts
    ∧ last stmts = Some (SItem (symbol_of (namespace ctx) self) type_ args).
Proof.
  revert self.
  apply (MenuNode_nested_ind (λ self, ∀ ctx st st',
           emit_code self ctx st = (inr (), st') →
           ∃ stmts type_ args,
             bufsrc st' = bufsrc st ++ stmts
             ∧ last stmts = Some (SItem (symbol_of (namespace ctx) self) type_ args)));
    [intros n|intros b items auth IH].
  - destruct n as [b ? ? ? ?|b ? ? ?|b ?|b opts|b ? ? md addr|b ?|b items auth|b]; [..|done|];
      intros ctx st st' H; cbn [emit_code] in H; em_unfold.
    + rewrite emit_simple_static_run in H.
      destruct (find_or_allocate_eeprom_space _ _) as [[e|off] m']; [discriminate|].
      inversion H; subst. cbn [bufsrc]. symbol_defined.
    + rewrite emit_simple_dynamic_run in H.
      destruct (find_or_allocate_eeprom_space _ _) as [[e|off] m']; [discriminate|].
      inversion H; subst. cbn [bufsrc]. symbol_defined.
    + rewrite emit_simple_static_run in H.
      destruct (find_or_allocate_eeprom_space _ _) as [[e|off] m']; [discriminate|].
      inversion H; subst. cbn [bufsrc]. symbol_defined.
    + match type of H with
      | context [emit_enum_strs ?n ?pg ?i ?o ?s] =>
          destruct (emit_enum_strs_run n pg i o s) as [enum_stmts E]
      end.
      rewrite E in H. unfold write_src in H. em_unfold.
      rewrite emit_simple_static_run in H. cbn [eeprom_map] in H.
      destruct (find_or_allocate_eeprom_space _ _) as [[e|off] m']; [discriminate|].
      inversion H; subst. cbn [bufsrc]. symbol_defined.
    + destruct md; unfold write_src in H; em_unfold;
        try destruct (spare_segments (eeprom_map st) !! addr); try discriminate;
        rewrite emit_simple_dynamic_run in H; cbn [eeprom_map] in H;
        (destruct (find_or_allocate_eeprom_space _ _) as [[e|off] m']; [discriminate|]);
        inversion H; subst; cbn [bufsrc]; rewrite ?app_nil_r; symbol_defined.
    + rewrite emit_simple_static_run in H.
      destruct (find_or_allocate_eeprom_space _ _) as [[e|off] m']; [discriminate|].
      inversion H; subst. cbn [bufsrc]. symbol_defined.
    + rewrite emit_simple_static_run in H.
      destruct (find_or_allocate_eeprom_space _ _) as [[e|off] m']; [discriminate|].
      inversion H; subst. cbn [bufsrc]. symbol_defined.
  - intros ctx st st' H. rewrite emit_code_submenu_run in H.
    destruct (emit_items emit_code _ _ items st) as [[e|[]] st1] eqn:Ei; [discriminate|].
    destruct items as [|items_0 rest]; [discriminate|].
    destruct (persistent b); [discriminate|].
    inversion H; subst. cbn [bufsrc].
    apply emit_items_emitted, items_append_src in Ei as [stmts1 E1].
    2:{ eapply Forall_impl; [exact IH|]. intros n Hn c s s' Hc.
        destruct (Hn c s s' Hc) as (stmts & _ & _ & Hs & _). eauto. }
    rewrite E1. unfold submenu_tail_src.
    exists (stmts1 ++ submenu_tail_src (SubMenuType b (items_0 :: rest) auth) ctx items_0).
    eexists _, _. split; [by rewrite <- app_assoc|].
    unfold submenu_tail_src.
    match goal with
    | |- last (_ ++ [?a; ?b; ?c; ?d]) = _ =>
        change [a; b; c; d] with ([a; b; c] ++ [d])
    end.
    rewrite app_assoc. apply last_snoc.
Qed.

(** The first of the items emitted is defined, under its symbol in the
    namespace of the items, in what the items add to the source. *)
Lemma items_emitted_first ns pg items_0 rest st st_items :
  items_emitted ns pg (items_0 :: rest) st st_items →
  ∃ item_stmts type_ args,
    bufsrc st_items = bufsrc st ++ item_stmts
    ∧ SItem (symbol_of ns items_0) type_ args ∈ item_stmts.
Proof.
  intros H. inversion H as [|? ? ? st1 ? E Hrest]; subst.
  apply emit_code_defines_symbol in E as (s1 & type_ & args & E1 & Hlast).
  apply items_append_src in Hrest as [s2 E2].
  2:{ apply Forall_true. intros n c s s' Hc.
      destruct (emit_code_defines_symbol n c s s' Hc) as (stmts & _ & _ & Hs & _). eauto. }
  exists (s1 ++ s2), type_, args. split.
  - by rewrite E2, E1, app_assoc.
  - apply elem_of_app. left. by apply last_Some_elem_of.
Qed.

(** C8. SubMenu emission order and linkage: emitting a sub-menu returns
    exactly when it has a first item, is not marked persistent, and its
    items have all been emitted, in sibling order, in the namespace extended
    with the sub-menu. The source then holds, after what the items wrote
    (which defines the symbol of the first item), the back item, whose
    next-link is the address of the first item's symbol, and last the entry
    of the sub-menu itself, whose child reference is the address of the back
    item's symbol; the header gets the two declarations in the same order
    and the EEPROM map is the one the items left. *)
Theorem submenu_emission_order b items auth ctx st st' :
  let self := SubMenuType b items auth in
  emit_code self ctx st = (inr (), st') ↔
  ∃ items_0 rest st_items,
    items = items_0 :: rest
    ∧ persistent b = false
    ∧ items_emitted (namespace ctx ++ [self]) (use_pgmspace ctx) items st st_items
    ∧ (∃ item_stmts type_ args,
         bufsrc st_items = bufsrc st ++ item_stmts
         ∧ SItem (symbol_of (namespace ctx ++ [self]) items_0) type_ args ∈ item_stmts)
    ∧ st' = {| bufsrc := bufsrc st_items ++ submenu_tail_src self ctx items_0;
               bufhdr := bufhdr st_items ++ submenu_tail_hdr self ctx;
               eeprom_map := eeprom_map st_items |}.
Proof.
  intros self. subst self. rewrite emit_code_submenu_run. split.
  - destruct (emit_items emit_code _ _ items st) as [[e|[]] st_items] eqn:Ei; [discriminate|].
    apply emit_items_emitted in Ei.
    destruct items as [|items_0 rest] eqn:Hitems; [discriminate|].
    destruct (persistent b); [discriminate|].
    intros H. inversion H; subst st'. clear H.
    exists items_0, rest, st_items.
    split; [done|]. split; [done|]. split; [done|]. split; [|done].
    by eapply items_emitted_first.
  - intros (items_0 & rest & st_items & Hitems & Hp & Hemit & _ & ->).
    apply emit_items_emitted in Hemit. rewrite Hemit, Hp.
    destruct items; [discriminate|]. by inversion Hitems; subst.
Qed.

Lemma submenu_emission_order_witness :
  ∃ st_items,
    items_emitted [settings_node] false [level_node] example_state st_items
    ∧ bufsrc st_items =
        [ SInfo "minfoSettingsLevel" "AnalogMenuInfo" false
            [VStr "Level"; VInt 1; VHex 2; VInt 255; VTok "NO_CALLBACK"; VInt 0; VInt 1;
             VStr ""];
          SItem "menuSettingsLevel" "AnalogMenuItem"
            [VRef "minfoSettingsLevel"; VInt 0; VNullptr] ]
    ∧ snd (emit_code settings_node (example_ctx []) example_state) =
        {| bufsrc := bufsrc st_items ++
             [ SRenderCallback [VTok "fnSettingsRtCall"; VTok "backSubItemRenderFn";
                                VStr "Settings"; VHex 65535; VTok "NO_CALLBACK"];
               SItem "menubackSettings" "BackMenuItem"
                 [VTok "fnSettingsRtCall"; VRef "menuSettingsLevel"];
               SInfo "minfoSettings" "SubMenuInfo" false
                 [VStr "Settings"; VInt 2; VHex 65535; VInt 0; VTok "NO_CALLBACK"];
               SItem "menuSettings" "SubMenuItem"
                 [VRef "minfoSettings"; VRef "menubackSettings"; VNullptr] ];
           bufhdr := bufhdr st_items ++
             [ HExtern "menubackSettings" "BackMenuItem";
               HExtern "menuSettings" "SubMenuItem" ];
           eeprom_map := eeprom_map st_items |}.
Proof.
  destruct (proj1 (submenu_emission_order (example_base 2 "Settings" false None)
                     [level_node] false (example_ctx []) example_state
                     (snd (emit_code settings_node (example_ctx []) example_state))))
    as (items_0 & rest & st_items & Hitems & _ & Hemit & _ & Hst).
  { reflexivity. }
  inversion Hitems; subst items_0 rest.
  exists st_items. split; [exact Hemit|]. split; [|exact Hst].
  inversion Hemit as [|? ? ? st1 ? E Hrest]; subst.
  inversion Hrest; subst.
  vm_compute in E. inversion E. reflexivity.
Defined.

End Emitter.

(** ** Invariants of the storage map *)

Section MapInvariants.

Import EEPROMMap.

Implicit Types (self : MenuNode) (m : EEPROMMap.t) (key : string).

Lemma slots_disjoint_sym (a b : OffSize) : slots_disjoint a b → slots_disjoint b a.
Proof. unfold slots_disjoint. tauto. Qed.

Lemma init_wf (cap res : Z) : map_wf (__init__ cap res).
Proof.
  split.
  - unfold entries_below_cursor. cbn. apply map_Forall_singleton. cbn. lia.
  - intros k1 k2 e1 e2 Hne H1 H2. cbn in H1, H2.
    apply lookup_singleton_Some in H1 as [<- _], H2 as [<- _]. done.
Qed.

Lemma delitem_wf key m : map_wf m → map_wf (delitem key m).
Proof.
  intros [Hb Hd]. split.
  - unfold entries_below_cursor in *. cbn. by apply map_Forall_delete.
  - intros k1 k2 e1 e2 Hne H1 H2. cbn in H1, H2.
    apply lookup_delete_Some in H1 as [_ H1], H2 as [_ H2]. eauto.
Qed.

(** What a successful [auto_allocate] of a slot of non-negative size gives. *)
Lemma auto_allocate_inr_wf key sz m a m' :
  0 <= sz → map_wf m → auto_allocate key sz m = (inr a, m') →
  map_wf m'
  ∧ (∀ k e, k ≠ key → data m' !! k = Some e → slots_disjoint e a)
  ∧ offset a = _auto_index m ∧ size a = sz
  ∧ offset a < 65535 ∧ offset a + size a <= 65535
  ∧ offset a + size a < Z.min (varstore_bar m) (capacity m).
Proof.
  intros Hsz [Hb Hd] H.
  assert (_auto_index m < 65535) as C0.
  { destruct (decide (65535 <= _auto_index m)) as [Hge|]; [|lia].
    rewrite auto_allocate_exhausted in H by auto. discriminate. }
  destruct (auto_allocate_cases key sz m) as [[E _]|[[E _]|[E [C1 C2]]]];
    rewrite E in H; inversion H; subst; clear H E.
  assert (∀ k e, k ≠ key →
            <[key:={| offset := _auto_index m; size := sz |}]> (data m) !! k = Some e →
            slots_disjoint e {| offset := _auto_index m; size := sz |}) as Hnew.
  { intros k e Hk He. rewrite lookup_insert_ne in He by done.
    left. cbn. exact (Hb _ _ He). }
  split; [split|].
  - unfold entries_below_cursor. cbn. apply map_Forall_insert_2; [cbn; lia|].
    intros k e He. specialize (Hb _ _ He). cbn in Hb |- *. lia.
  - intros k1 k2 e1 e2 Hne H1 H2. cbn in H1, H2.
    destruct (decide (k1 = key)) as [->|N1], (decide (k2 = key)) as [->|N2]; [done|..].
    + rewrite lookup_insert_eq in H1. inversion H1; subst.
      apply slots_disjoint_sym. eauto.
    + rewrite lookup_insert_eq in H2. inversion H2; subst. eauto.
    + rewrite lookup_insert_ne in H1, H2 by done. eauto.
  - cbn. repeat split; try lia. exact Hnew.
Qed.

Lemma auto_allocate_wf key sz m :
  0 <= sz → map_wf m → map_wf (snd (auto_allocate key sz m)).
Proof.
  intros Hsz Hwf. destruct (auto_allocate key sz m) as [[e|a] m'] eqn:E.
  - destruct (auto_allocate_cases key sz m) as [[E' _]|[[E' _]|[E' _]]];
      rewrite E' in E; inversion E; subst; done.
  - by destruct (auto_allocate_inr_wf _ _ _ _ _ Hsz Hwf E) as [? _].
Qed.

Lemma auto_allocate_frame key sz m :
  0 <= sz → map_frame m (snd (auto_allocate key sz m)).
Proof.
  intros Hsz.
  destruct (auto_allocate_cases key sz m) as [[E _]|[[E _]|[E _]]]; rewrite E;
    unfold map_frame; cbn; repeat split; lia.
Qed.

Lemma map_frame_trans m0 m1 m2 : map_frame m0 m1 → map_frame m1 m2 → map_frame m0 m2.
Proof.
  unfold map_frame. intros (-> & -> & -> & ?) (-> & -> & -> & ?). repeat split. lia.
Qed.

Lemma map_frame_refl m : map_frame m m.
Proof. unfold map_frame. repeat split. lia. Qed.

Lemma serialized_size_nonneg self sz : get_serialized_size self = inr sz → 0 < sz.
Proof. destruct self; cbn; intros H; inversion H; lia. Qed.

(** The map that [find_or_allocate_eeprom_space] leaves is the one it got,
    or that one without the key of the node, or one of these after a call
    of [auto_allocate] for the serialized size. *)
Lemma find_or_allocate_shape self m :
  let m' := snd (find_or_allocate_eeprom_space self m) in
  m' = m ∨ m' = delitem (generate_id (base self)) m
  ∨ ∃ sz m0, 0 < sz
      ∧ (m0 = m ∨ m0 = delitem (generate_id (base self)) m)
      ∧ m' = snd (auto_allocate (generate_id (base self)) sz m0).
Proof.
  unfold find_or_allocate_eeprom_space. em_unfold. cbn zeta.
  destruct (serializable self && persistent (base self)
            && contains (generate_id (base self)) m).
  - destruct (data m !! generate_id (base self)) as [o|]; [|by left].
    destruct (get_serialized_size self) as [e|sz] eqn:Hz; [by left|].
    destruct (size o =? sz); [by left|].
    right. right. exists sz, (delitem (generate_id (base self)) m).
    split; [by eapply serialized_size_nonneg|]. split; [by right|].
    by destruct (auto_allocate _ _ _) as [[?|?] ?].
  - destruct (persistent (base self)); [|by left].
    destruct (get_serialized_size self) as [e|sz] eqn:Hz; [by left|].
    right. right. exists sz, m.
    split; [by eapply serialized_size_nonneg|]. split; [by left|].
    by destruct (auto_allocate _ _ _) as [[?|?] ?].
Qed.

Lemma find_or_allocate_wf self m :
  map_wf m → map_wf (snd (find_or_allocate_eeprom_space self m)).
Proof.
  intros Hwf.
  destruct (find_or_allocate_shape self m) as [->|[->|(sz & m0 & Hsz & Hm0 & ->)]];
    [done|by apply delitem_wf|].
  apply auto_allocate_wf; [lia|]. destruct Hm0 as [->| ->]; [done|by apply delitem_wf].
Qed.

Lemma find_or_allocate_map_frame self m :
  map_frame m (snd (find_or_allocate_eeprom_space self m)).
Proof.
  destruct (find_or_allocate_shape self m) as [->|[->|(sz & m0 & Hsz & Hm0 & ->)]].
  - apply map_frame_refl.
  - unfold map_frame. cbn. repeat split. lia.
  - eapply map_frame_trans; [|apply auto_allocate_frame; lia].
    destruct Hm0 as [->| ->]; [apply map_frame_refl|].
    unfold map_frame. cbn. repeat split. lia.
Qed.

(** *** Properties of the map kept by the whole traversal *)

Lemma keeps_map_bind I {A B} (c : EM EmitState A) (k : A → EM EmitState B) :
  keeps_map I c → (∀ a, keeps_map I (k a)) → keeps_map I (c ≫= k).
Proof.
  intros Hc Hk st HI. specialize (Hc st HI). em_unfold.
  destruct (c st) as [[e|a] s1]; cbn in *; [done|]. by apply Hk.
Qed.

Lemma keeps_map_ret I {A} (a : A) : keeps_map I (mret (M := EM EmitState) a).
Proof. by intros st HI. Qed.

Lemma keeps_map_raise I {A} e : keeps_map I (raise (S := EmitState) (A := A) e).
Proof. by intros st HI. Qed.

Lemma keeps_map_write_src I x : keeps_map I (write_src x).
Proof. by intros st HI. Qed.

Lemma keeps_map_write_hdr I x : keeps_map I (write_hdr x).
Proof. by intros st HI. Qed.

Lemma keeps_map_get I : keeps_map I (get (S := EmitState)).
Proof. by intros st HI. Qed.

Section Keeps.

Context (I : EEPROMMap.t → Prop).
Hypothesis find_keeps : ∀ self m, I m → I (snd (find_or_allocate_eeprom_space self m)).

Lemma keeps_map_find self : keeps_map I (on_eeprom_map (find_or_allocate_eeprom_space self)).
Proof.
  intros st HI. unfold on_eeprom_map.
  pose proof (find_keeps self _ HI) as H.
  by destruct (find_or_allocate_eeprom_space self (eeprom_map st)) as [r m'].
Qed.

Ltac keeps_map_base :=
  repeat first
    [ apply keeps_map_ret | apply keeps_map_raise | apply keeps_map_get
    | apply keeps_map_write_src | apply keeps_map_write_hdr | apply keeps_map_find
    | (apply keeps_map_bind; [|intros ?])
    | match goal with |- keeps_map _ (match ?x with _ => _ end) => destruct x end ].

Lemma keeps_map_static self ctx me mie p pm nen :
  keeps_map I (emit_simple_static_menu_item self ctx me mie p pm nen).
Proof. unfold emit_simple_static_menu_item. keeps_map_base. Qed.

Lemma keeps_map_dynamic self ctx mie np p rp order nen cc :
  keeps_map I (emit_simple_dynamic_menu_item self ctx mie np p rp order nen cc).
Proof. unfold emit_simple_dynamic_menu_item. keeps_map_base. Qed.

Lemma keeps_map_enum_strs enum_name pg i options :
  keeps_map I (emit_enum_strs enum_name pg i options).
Proof.
  revert i. induction options as [|o options IH]; intros i; cbn.
  - apply keeps_map_ret.
  - apply keeps_map_bind; [apply keeps_map_write_src|]. intros _. apply IH.
Qed.

Lemma keeps_map_items ns pg items :
  Forall (λ n, ∀ ctx, keeps_map I (emit_code n ctx)) items →
  keeps_map I (emit_items emit_code ns pg items).
Proof.
  induction 1 as [|x items Hx _ IH]; cbn.
  - apply keeps_map_ret.
  - apply keeps_map_bind; [apply Hx|]. intros _. apply IH.
Qed.

Ltac keeps_map_step :=
  repeat lazymatch goal with
    | |- keeps_map _ (emit_simple_static_menu_item _ _ _ _ _ _ _) => apply keeps_map_static
    | |- keeps_map _ (emit_simple_dynamic_menu_item _ _ _ _ _ _ _ _ _) =>
        apply keeps_map_dynamic
    | |- keeps_map _ (emit_enum_strs _ _ _ _) => apply keeps_map_enum_strs
    | |- keeps_map _ (mret _) => apply keeps_map_ret
    | |- keeps_map _ (raise _) => apply keeps_map_raise
    | |- keeps_map _ get => apply keeps_map_get
    | |- keeps_map _ (write_src _) => apply keeps_map_write_src
    | |- keeps_map _ (mbind _ _) => apply keeps_map_bind; [|intros ?]
    | |- keeps_map _ (match ?x with _ => _ end) => destruct x
    end.

Lemma emit_code_keeps_map self : ∀ ctx, keeps_map I (emit_code self ctx).
Proof.
  revert self.
  apply (MenuNode_nested_ind (λ self, ∀ ctx, keeps_map I (emit_code self ctx)));
    [intros n|intros b items auth IH].
  - destruct n as [b ? ? ? ?|b ? ? ?|b ?|b opts|b ? ? md addr|b ?|b items auth|b]; [..|done|];
      intros ctx; cbn [emit_code]; keeps_map_step.
  - intros ctx. cbn [emit_code].
    apply keeps_map_bind; [by apply keeps_map_items|]. intros _. keeps_map_step.
Qed.

Lemma do_codegen_items_keeps_map items pg : keeps_map I (do_codegen_items items pg).
Proof.
  unfold do_codegen_items. apply keeps_map_bind.
  - apply keeps_map_items. apply Forall_true. intros n. apply emit_code_keeps_map.
  - intros _. apply keeps_map_ret.
Qed.

End Keeps.

End MapInvariants.

(** ** Properties of the allocator beyond the claims *)

Section AllocatorExtras.

Import EEPROMMap.

(** X1. A slot returned by [auto_allocate] (for a non-negative size, on a
    well-formed map) starts at the old cursor, is disjoint from the slot of
    every other key, never starts at the sentinel address 0xFFFF, ends at or
    below 65535 and strictly below both the reserve boundary and the
    capacity; and the map it leaves is well-formed again. *)
Theorem auto_allocate_slot_fresh (key : string) (sz : Z) (m m' : EEPROMMap.t) (a : OffSize) :
  0 <= sz → map_wf m → auto_allocate key sz m = (inr a, m') →
  map_wf m'
  ∧ (∀ k e, k ≠ key → data m' !! k = Some e → slots_disjoint e a)
  ∧ offset a = _auto_index m ∧ size a = sz
  ∧ offset a < 65535 ∧ offset a + size a <= 65535
  ∧ offset a + size a < Z.min (varstore_bar m) (capacity m).
Proof. apply auto_allocate_inr_wf. Qed.

Lemma auto_allocate_slot_fresh_witness :
  ∃ m', auto_allocate "Level" 2 (__init__ 100 0) = (inr {| offset := 2; size := 2 |}, m')
        ∧ map_wf m'.
Proof.
  exists (snd (auto_allocate "Level" 2 (__init__ 100 0))).
  split; [reflexivity|].
  apply (auto_allocate_slot_fresh "Level" 2 (__init__ 100 0) _ {| offset := 2; size := 2 |}).
  - lia.
  - apply init_wf.
  - reflexivity.
Defined.

(** X2. [find_or_allocate_eeprom_space] keeps a storage map well-formed
    (every recorded slot ends at or below the cursor, the slots of different
    keys are pairwise disjoint) for every node, whether it returns an
    offset or raises. *)
Theorem find_or_allocate_keeps_wf (self : MenuNode) (m : EEPROMMap.t) :
  map_wf m → map_wf (snd (find_or_allocate_eeprom_space self m)).
Proof. apply find_or_allocate_wf. Qed.

Lemma find_or_allocate_keeps_wf_witness :
  map_wf (snd (find_or_allocate_eeprom_space level_node (example_map "Level" 2 1 3))).
Proof.
  apply find_or_allocate_keeps_wf. split.
  - apply example_map_below_cursor; lia.
  - intros k1 k2 e1 e2 Hne H1 H2. cbn in H1, H2.
    apply lookup_insert_Some in H1 as [[<- <-]|[N1 H1]], H2 as [[<- <-]|[N2 H2]];
      try done.
    + apply lookup_singleton_Some in H2 as [_ <-]. right. cbn. lia.
    + apply lookup_singleton_Some in H1 as [_ <-]. left. cbn. lia.
    + apply lookup_singleton_Some in H1 as [<- _], H2 as [<- _]. done.
Defined.

(** X3. The traversal of a whole descriptor keeps the storage map
    well-formed, whatever the menu tree, and whether the traversal
    completes or raises on the way: compiling against a well-formed map, a
    fresh [EEPROMMap(capacity, reserve)] in particular, never leaves two keys
    with overlapping slots nor a slot that ends above the cursor. *)
Theorem do_codegen_items_keeps_wf (desc_items : list MenuNode) (use_pgmspace : bool)
    (st : EmitState) :
  map_wf (eeprom_map st) →
  map_wf (eeprom_map (snd (do_codegen_items desc_items use_pgmspace st))).
Proof.
  apply (do_codegen_items_keeps_map map_wf).
  intros self m. apply find_or_allocate_wf.
Qed.

Lemma do_codegen_items_keeps_wf_witness :
  map_wf (eeprom_map (snd (do_codegen_items [enable_node; settings_node; reset_node] false
                             example_state))).
Proof.
  apply do_codegen_items_keeps_wf. apply init_wf.
Defined.

(** X4. The traversal of a descriptor never writes the capacity, the
    reserve boundary or the spare segments of the storage map, and never
    moves the cursor back, whether it completes or raises. *)
Theorem do_codegen_items_frame (desc_items : list MenuNode) (use_pgmspace : bool)
    (st : EmitState) :
  let m' := eeprom_map (snd (do_codegen_items desc_items use_pgmspace st)) in
  capacity m' = capacity (eeprom_map st)
  ∧ varstore_bar m' = varstore_bar (eeprom_map st)
  ∧ spare_segments m' = spare_segments (eeprom_map st)
  ∧ _auto_index (eeprom_map st) <= _auto_index m'.
Proof.
  apply (do_codegen_items_keeps_map (map_frame (eeprom_map st))).
  - intros self m H. eapply map_frame_trans; [exact H|]. apply find_or_allocate_map_frame.
  - apply map_frame_refl.
Qed.

End AllocatorExtras.

(** ** Properties of the emitter beyond the claims *)

Section EmitterExtras.

Import EEPROMMap.

(** *** Definitions and declarations go in pairs *)

Lemma writes_paired_bind {A B} (c : EM EmitState A) (k : A → EM EmitState B) :
  writes_paired c → (∀ a, writes_paired (k a)) → writes_paired (c ≫= k).
Proof.
  intros Hc Hk st. destruct (Hc st) as (s1 & h1 & E1 & E2 & E3). em_unfold.
  destruct (c st) as [[e|a] st1]; cbn in *; [eauto|].
  destruct (Hk a st1) as (s2 & h2 & F1 & F2 & F3).
  exists (s1 ++ s2), (h1 ++ h2). rewrite F1, F2, E1, E2, <- !app_assoc.
  split; [done|]. split; [done|].
  unfold declared_items in *. by rewrite omap_app, E3, F3.
Qed.

Lemma writes_paired_nothing {A} (c : EM EmitState A) :
  (∀ st, bufsrc (snd (c st)) = bufsrc st ∧ bufhdr (snd (c st)) = bufhdr st) →
  writes_paired c.
Proof.
  intros H st. destruct (H st) as [-> ->]. exists [], []. by rewrite !app_nil_r.
Qed.

Lemma writes_paired_ret {A} (a : A) : writes_paired (mret (M := EM EmitState) a).
Proof. by apply writes_paired_nothing. Qed.

Lemma writes_paired_raise {A} e : writes_paired (raise (S := EmitState) (A := A) e).
Proof. by apply writes_paired_nothing. Qed.

Lemma writes_paired_get : writes_paired (get (S := EmitState)).
Proof. by apply writes_paired_nothing. Qed.

Lemma writes_paired_on_map {A} (c : EM EEPROMMap.t A) : writes_paired (on_eeprom_map c).
Proof.
  apply writes_paired_nothing. intros st. unfold on_eeprom_map.
  by destruct (c (eeprom_map st)).
Qed.

(** A statement that is not a menu item needs no declaration. *)
Lemma writes_paired_write_src x :
  declared_items [x] = [] → writes_paired (write_src x).
Proof.
  intros H st. exists [x], []. cbn. by rewrite app_nil_r.
Qed.

(** A menu item is written together with its declaration. *)
Lemma writes_paired_item item_name type_ args :
  writes_paired (write_src (SItem item_name type_ args);;
                 write_hdr (HExtern item_name type_)).
Proof.
  intros st. exists [SItem item_name type_ args], [HExtern item_name type_]. done.
Qed.

Lemma writes_paired_item_then {A} item_name type_ args (k : EM EmitState A) :
  writes_paired k →
  writes_paired (write_src (SItem item_name type_ args);;
                 write_hdr (HExtern item_name type_);; k).
Proof.
  intros Hk st.
  destruct (Hk {| bufsrc := bufsrc st ++ [SItem item_name type_ args];
                  bufhdr := bufhdr st ++ [HExtern item_name type_];
                  eeprom_map := eeprom_map st |}) as (s2 & h2 & F1 & F2 & F3).
  exists (SItem item_name type_ args :: s2), (HExtern item_name type_ :: h2).
  unfold write_src, write_hdr. em_unfold. cbn in *.
  rewrite F1, F2, <- !app_assoc. split; [done|]. split; [done|].
  unfold declared_items in *. cbn. by rewrite F3.
Qed.

Lemma writes_paired_static self ctx me mie p pm nen :
  writes_paired (emit_simple_static_menu_item self ctx me mie p pm nen).
Proof.
  unfold emit_simple_static_menu_item.
  apply writes_paired_bind; [apply writes_paired_on_map|]. intros off.
  apply writes_paired_bind; [by apply writes_paired_write_src|]. intros _.
  apply writes_paired_item_then, writes_paired_ret.
Qed.

Lemma writes_paired_dynamic self ctx mie np p rp order nen cc :
  writes_paired (emit_simple_dynamic_menu_item self ctx mie np p rp order nen cc).
Proof.
  unfold emit_simple_dynamic_menu_item.
  apply writes_paired_bind; [apply writes_paired_on_map|]. intros off.
  apply writes_paired_bind.
  { destruct cc; [apply writes_paired_ret|by apply writes_paired_write_src]. }
  intros _. apply writes_paired_item_then, writes_paired_ret.
Qed.

Lemma writes_paired_enum_strs enum_name pg i options :
  writes_paired (emit_enum_strs enum_name pg i options).
Proof.
  revert i. induction options as [|o options IH]; intros i; cbn.
  - apply writes_paired_ret.
  - apply writes_paired_bind; [by apply writes_paired_write_src|]. intros _. apply IH.
Qed.

Lemma writes_paired_items ns pg items :
  Forall (λ n, ∀ ctx, writes_paired (emit_code n ctx)) items →
  writes_paired (emit_items emit_code ns pg items).
Proof.
  induction 1 as [|x items Hx _ IH]; cbn.
  - apply writes_paired_ret.
  - apply writes_paired_bind; [apply Hx|]. intros _. apply IH.
Qed.

Ltac writes_paired_step :=
  repeat lazymatch goal with
    | |- writes_paired (emit_simple_static_menu_item _ _ _ _ _ _ _) =>
        apply writes_paired_static
    | |- writes_paired (emit_simple_dynamic_menu_item _ _ _ _ _ _ _ _ _) =>
        apply writes_paired_dynamic
    | |- writes_paired (emit_enum_strs _ _ _ _) => apply writes_paired_enum_strs
    | |- writes_paired (mret _) => apply writes_paired_ret
    | |- writes_paired (raise _) => apply writes_paired_raise
    | |- writes_paired get => apply writes_paired_get
    | |- writes_paired (write_src _) => apply writes_paired_write_src; reflexivity
    | |- writes_paired (mbind _ _) => apply writes_paired_bind; [|intros ?]
    | |- writes_paired (match ?x with _ => _ end) => destruct x
    end.

Lemma emit_code_writes_paired self : ∀ ctx, writes_paired (emit_code self ctx).
Proof.
  revert self.
  apply (MenuNode_nested_ind (λ self, ∀ ctx, writes_paired (emit_code self ctx)));
    [intros n|intros b items auth IH].
  - destruct n as [b ? ? ? ?|b ? ? ?|b ?|b opts|b ? ? md addr|b ?|b items auth|b]; [..|done|];
      intros ctx; cbn [emit_code]; writes_paired_step.
  - intros ctx. cbn [emit_code].
    apply writes_paired_bind; [by apply writes_paired_items|]. intros _.
    writes_paired_step.
Qed.

(** X5. Whatever the traversal of a descriptor adds to the source and to
    the header, also when it raises on the way, the old contents stay in
    front, and the header gets exactly one [extern] declaration, with the
    same name and type and in the same order, for every menu item defined
    in the source. *)
Theorem do_codegen_items_declares_items (desc_items : list MenuNode) (use_pgmspace : bool)
    (st : EmitState) :
  ∃ src' hdr',
    bufsrc (snd (do_codegen_items desc_items use_pgmspace st)) = bufsrc st ++ src'
    ∧ bufhdr (snd (do_codegen_items desc_items use_pgmspace st)) = bufhdr st ++ hdr'
    ∧ declared_items src' = hdr'.
Proof.
  revert st. change (writes_paired (do_codegen_items desc_items use_pgmspace)).
  unfold do_codegen_items. apply writes_paired_bind.
  - apply writes_paired_items, Forall_true. intros n. apply emit_code_writes_paired.
  - intros _. apply writes_paired_ret.
Qed.

(** *** Next-links *)

Lemma next_name_ref_sibling ns rest :
  next_name_ref (ns_id_of ns) (head rest)
  = match rest !! 0%nat with
    | Some next => VRef (symbol_of ns next)
    | None => VNullptr
    end.
Proof. by destruct rest. Qed.

(** Closes [∃ stmts type_ args, new = old ++ stmts ∧ last stmts = Some (SItem _ type_ args)
    ∧ last args = Some _]. *)
Ltac entry_linked :=
  eexists _, _, _; split; [rewrite <- ?app_assoc; reflexivity|]; split;
  [ rewrite ?app_assoc; first [apply last_snoc | reflexivity]
  | rewrite ?app_assoc; first [apply last_snoc | reflexivity] ].

(** The entry that ends what a node emits carries the next-link computed
    from the context. *)
Lemma emit_code_links_next self ctx st st' :
  emit_code self ctx st = (inr (), st') →
  ∃ stmts type_ args,
    bufsrc st' = bufsrc st ++ stmts
    ∧ last stmts = Some (SItem (symbol_of (namespace ctx) self) type_ args)
    ∧ last args = Some (next_name_ref (ns_id_of (namespace ctx)) (next_entry ctx)).
Proof.
  destruct self as [b ? ? ? ?|b ? ? ?|b ?|b opts|b ? ? md addr|b ?|b items auth|b];
    intros H; cbn [emit_code] in H.
  8: { em_unfold. rewrite emit_simple_static_run in H.
       destruct (find_or_allocate_eeprom_space _ _) as [[e|off] m']; [discriminate|].
       inversion H; subst. cbn [bufsrc]. entry_linked. }
  7: { change (emit_code (SubMenuType b items auth) ctx st = (inr (), st')) in H.
       rewrite emit_code_submenu_run in H.
       destruct (emit_items emit_code _ _ items st) as [[e|[]] st1] eqn:Ei; [discriminate|].
       destruct items as [|items_0 rest]; [discriminate|].
       destruct (persistent b); [discriminate|].
       inversion H; subst. cbn [bufsrc].
       apply emit_items_emitted, items_append_src in Ei as [stmts1 E1].
       2:{ apply Forall_true. intros n c s s' Hc.
           destruct (emit_code_defines_symbol n c s s' Hc) as (stmts & _ & _ & Hs & _).
           eauto. }
       rewrite E1.
       exists (stmts1 ++ submenu_tail_src (SubMenuType b (items_0 :: rest) auth) ctx items_0).
       eexists _, _. split; [by rewrite <- app_assoc|].
       unfold submenu_tail_src.
       match goal with
       | |- last (_ ++ [?a; ?b; ?c; ?d]) = _ ∧ _ =>
           change [a; b; c; d] with ([a; b; c] ++ [d])
       end.
       split; [rewrite app_assoc; apply last_snoc|reflexivity]. }
  all: em_unfold.
  - rewrite emit_simple_static_run in H.
    destruct (find_or_allocate_eeprom_space _ _) as [[e|off] m']; [discriminate|].
    inversion H; subst. cbn [bufsrc]. entry_linked.
  - rewrite emit_simple_dynamic_run in H.
    destruct (find_or_allocate_eeprom_space _ _) as [[e|off] m']; [discriminate|].
    inversion H; subst. cbn [bufsrc]. entry_linked.
  - rewrite emit_simple_static_run in H.
    destruct (find_or_allocate_eeprom_space _ _) as [[e|off] m']; [discriminate|].
    inversion H; subst. cbn [bufsrc]. entry_linked.
  - match type of H with
    | context [emit_enum_strs ?n ?pg ?i ?o ?s] =>
        destruct (emit_enum_strs_run n pg i o s) as [enum_stmts E]
    end.
    rewrite E in H. unfold write_src in H. em_unfold.
    rewrite emit_simple_static_run in H. cbn [eeprom_map] in H.
    destruct (find_or_allocate_eeprom_space _ _) as [[e|off] m']; [discriminate|].
    inversion H; subst. cbn [bufsrc]. entry_linked.
  - destruct md; unfold write_src in H; em_unfold;
      try destruct (spare_segments (eeprom_map st) !! addr); try discriminate;
      rewrite emit_simple_dynamic_run in H; cbn [eeprom_map] in H;
      (destruct (find_or_allocate_eeprom_space _ _) as [[e|off] m']; [discriminate|]);
      inversion H; subst; cbn [bufsrc]; rewrite ?app_nil_r; entry_linked.
  - rewrite emit_simple_static_run in H.
    destruct (find_or_allocate_eeprom_space _ _) as [[e|off] m']; [discriminate|].
    inversion H; subst. cbn [bufsrc]. entry_linked.
Qed.

Lemma items_emitted_append ns pg items st st' :
  items_emitted ns pg items st st' → ∃ stmts, bufsrc st' = bufsrc st ++ stmts.
Proof.
  apply items_append_src, Forall_true. intros n c s s' Hc.
  destruct (emit_code_defines_symbol n c s s' Hc) as (stmts & _ & _ & Hs & _). eauto.
Qed.

Lemma items_emitted_chain ns pg items st st' :
  items_emitted ns pg items st st' →
  ∃ stmts, bufsrc st' = bufsrc st ++ stmts
    ∧ ∀ (i : nat) item, items !! i = Some item →
        ∃ type_ args, SItem (symbol_of ns item) type_ args ∈ stmts
                      ∧ last args = Some (sibling_link ns items i).
Proof.
  induction 1 as [st|item rest st st1 st2 E Hrest IH].
  - exists []. rewrite app_nil_r. split; [done|]. intros i item Hi. done.
  - apply emit_code_links_next in E as (s1 & type_ & args & E1 & Hlast & Hlink).
    destruct IH as (s2 & E2 & Hchain).
    exists (s1 ++ s2). split; [by rewrite E2, E1, app_assoc|].
    intros [|i] it Hi; cbn in Hi.
    + inversion Hi; subst it. exists type_, args. split.
      * apply elem_of_app. left. by apply last_Some_elem_of.
      * rewrite Hlink. cbn [namespace next_entry]. unfold sibling_link.
        by rewrite next_name_ref_sibling.
    + destruct (Hchain i it Hi) as (t & a & Hin & Hl).
      exists t, a. split; [apply elem_of_app; by right|]. exact Hl.
Qed.

(** X6. Sibling chain: when the loop over a list of items (the top level
    of the descriptor, or the items of a sub-menu) returns, what it added to
    the source holds, for every item of the list, the definition of its menu
    item under its symbol, whose last constructor argument is the address of
    the symbol of the next item of the list, or [nullptr] for the last
    one. *)
Theorem emit_items_sibling_chain (namespace : list MenuNode) (use_pgmspace : bool)
    (items : list MenuNode) (st st' : EmitState) :
  emit_items emit_code namespace use_pgmspace items st = (inr (), st') →
  ∃ stmts, bufsrc st' = bufsrc st ++ stmts
    ∧ ∀ (i : nat) item, items !! i = Some item →
        ∃ type_ args, SItem (symbol_of namespace item) type_ args ∈ stmts
                      ∧ last args = Some (sibling_link namespace items i).
Proof. intros H. by apply items_emitted_chain with use_pgmspace, emit_items_emitted. Qed.

Lemma emit_items_sibling_chain_witness :
  ∃ stmts,
    bufsrc (snd (emit_items emit_code [] false [enable_node; reset_node] example_state))
    = stmts
    ∧ (∃ type_ args, SItem "menuEnable" type_ args ∈ stmts
                     ∧ last args = Some (VRef "menuReset"))
    ∧ (∃ type_ args, SItem "menuReset" type_ args ∈ stmts ∧ last args = Some VNullptr).
Proof.
  destruct (emit_items_sibling_chain [] false [enable_node; reset_node] example_state
              (snd (emit_items emit_code [] false [enable_node; reset_node] example_state)))
    as (stmts & E & Hchain); [reflexivity|].
  exists stmts. split; [exact E|]. split.
  - exact (Hchain 0%nat enable_node eq_refl).
  - exact (Hchain 1%nat reset_node eq_refl).
Defined.

(** *** Entries that cannot be emitted *)

Lemma emit_state_eta (st : EmitState) :
  {| bufsrc := bufsrc st; bufhdr := bufhdr st; eeprom_map := eeprom_map st |} = st.
Proof. by destruct st. Qed.

Lemma find_or_allocate_not_serializable self m :
  serializable self = false → persistent (base self) = true →
  ∃ msg, get_serialized_size self = inl (ValueError msg)
         ∧ find_or_allocate_eeprom_space self m = (inl (ValueError msg), m).
Proof.
  intros Hs Hp. unfold find_or_allocate_eeprom_space. em_unfold.
  rewrite Hs, Hp. cbn. destruct self; try discriminate; cbn; eauto.
Qed.

(** X7. A node of a kind that is not serializable (Float, SubMenu, Action)
    and marked persistent cannot be given storage:
    [find_or_allocate_eeprom_space] raises the [ValueError] of its
    [get_serialized_size] and leaves the map as it was; for a Float or an
    Action, [emit_code] raises the same error without writing anything. *)
Theorem persistent_not_serializable_raises (self : MenuNode) (ctx : CodeEmitterContext)
    (st : EmitState) :
  serializable self = false → persistent (base self) = true →
  ∃ msg, get_serialized_size self = inl (ValueError msg)
    ∧ find_or_allocate_eeprom_space self (eeprom_map st)
      = (inl (ValueError msg), eeprom_map st)
    ∧ ((∀ b items auth, self ≠ SubMenuType b items auth) →
       emit_code self ctx st = (inl (ValueError msg), st)).
Proof.
  intros Hs Hp.
  destruct (find_or_allocate_not_serializable self (eeprom_map st) Hs Hp) as (msg & Hz & Hf).
  exists msg. split; [done|]. split; [done|]. intros Hsub.
  destruct self; try discriminate; try (by exfalso; eapply Hsub);
    cbn [emit_code]; em_unfold; rewrite emit_simple_static_run, Hf;
    by rewrite emit_state_eta.
Qed.

Lemma persistent_not_serializable_raises_witness :
  emit_code (FloatType (example_base 1 "Ratio" true None) 2) (example_ctx []) example_state
  = (inl (ValueError "FloatType is not serializable"), example_state).
Proof.
  destruct (persistent_not_serializable_raises
              (FloatType (example_base 1 "Ratio" true None) 2) (example_ctx [])
              example_state eq_refl eq_refl) as (msg & Hz & _ & H).
  inversion Hz; subst msg. apply H. intros b items auth Heq. discriminate Heq.
Defined.

(** X8. A ScrollChoice whose data source is in EEPROM names a spare
    segment of the storage map; when the map has no segment of that name,
    [emit_code] raises [KeyError] before anything is written or allocated. *)
Theorem scroll_choice_missing_segment (b : MenuBaseType) (item_size items : Z)
    (mode : DataSourceMode) (addr : string) (ctx : CodeEmitterContext) (st : EmitState) :
  mode = eeprom ∨ mode = array_in_eeprom →
  spare_segments (eeprom_map st) !! addr = None →
  emit_code (ScrollChoiceType b item_size items mode addr) ctx st = (inl (KeyError addr), st).
Proof.
  intros [-> | ->] Hn; cbn [emit_code]; em_unfold; rewrite Hn; reflexivity.
Qed.

Lemma scroll_choice_missing_segment_witness :
  emit_code (ScrollChoiceType (example_base 1 "Preset" true None) 10 4 eeprom "presets")
            (example_ctx []) example_state
  = (inl (KeyError "presets"), example_state).
Proof.
  apply scroll_choice_missing_segment; [by left|reflexivity].
Defined.

End EmitterExtras.

(** ** Properties of the identifiers beyond the claims *)

Section IdentifierExtras.

Lemma isalnum_upper (c : ascii) : isalnum (upper c) = isalnum c.
Proof. destruct c as [[] [] [] [] [] [] [] []]; reflexivity. Qed.

Lemma isalnum_lower (c : ascii) : isalnum (lower c) = isalnum c.
Proof. destruct c as [[] [] [] [] [] [] [] []]; reflexivity. Qed.

Lemma upper_lower (c : ascii) : upper (lower c) = upper c.
Proof. destruct c as [[] [] [] [] [] [] [] []]; reflexivity. Qed.

Lemma lower_lower (c : ascii) : lower (lower c) = lower c.
Proof. destruct c as [[] [] [] [] [] [] [] []]; reflexivity. Qed.

Lemma str_forall_app P (s t : string) :
  str_forall P (s +:+ t) = str_forall P s && str_forall P t.
Proof.
  induction s as [|c s IH]; [done|].
  rewrite str_app_cons. cbn. by rewrite IH, andb_assoc.
Qed.

Lemma str_forall_lower (s : string) : str_forall isalnum (str_lower s) = str_forall isalnum s.
Proof. induction s as [|c s IH]; [done|]. cbn. by rewrite isalnum_lower, IH. Qed.

Lemma str_forall_capitalize (w : string) :
  str_forall isalnum (capitalize w) = str_forall isalnum w.
Proof. destruct w as [|c w]; [done|]. cbn. by rewrite isalnum_upper, str_forall_lower. Qed.

(** The pieces of the split hold no delimiter. *)
Lemma re_split_from_alnum (b : bool) (s : string) :
  Forall (λ w, str_forall isalnum w = true) (re_split_from b s).
Proof.
  revert b. induction s as [|c s IH]; intros b; cbn.
  - by repeat constructor.
  - rewrite autoid_delim_not_alnum. destruct (isalnum c) eqn:Hc; cbn.
    + specialize (IH false). destruct (re_split_from false s) as [|w ws].
      * repeat constructor. cbn. by rewrite Hc.
      * inversion IH; subst. constructor; [|done]. cbn. by rewrite Hc.
    + destruct b; [apply IH|]. constructor; [done|apply IH].
Qed.

Lemma join_capitalize_alnum (l : list string) :
  Forall (λ w, str_forall isalnum w = true) l →
  str_forall isalnum (join (map capitalize l)) = true.
Proof.
  induction 1 as [|w l Hw _ IH]; [done|].
  cbn [map]. by rewrite join_cons, str_forall_app, str_forall_capitalize, Hw, IH.
Qed.

(** The identifier in terms of the split, without the claim's detour. *)
Lemma generate_id_words (b : MenuBaseType) :
  id_ b = None →
  generate_id b = join (map capitalize (spec_words (name b))) +:+ default "" (id_suffix b).
Proof.
  intros Hid. unfold generate_id. rewrite Hid.
  rewrite spec_words_split, join_capitalize_filter. by destruct (id_suffix b).
Qed.

(** X9. An identifier derived from the display name is made of
    alphanumeric characters only, up to the suffix: whatever punctuation,
    blanks or underscores the name holds, none of them reaches the C++
    symbol. *)
Theorem generate_id_alnum (b : MenuBaseType) :
  id_ b = None →
  ∃ derived, generate_id b = derived +:+ default "" (id_suffix b)
             ∧ str_forall isalnum derived = true.
Proof.
  intros Hid. exists (join (map capitalize (RE_AUTOID_DELIM_split (name b)))). split.
  - unfold generate_id. rewrite Hid. by destruct (id_suffix b).
  - apply join_capitalize_alnum, re_split_from_alnum.
Qed.

Lemma generate_id_alnum_witness :
  ∃ derived, generate_id (example_base 1 "LED #1: (red/green)" false None)
             = derived +:+ "" ∧ str_forall isalnum derived = true.
Proof. apply (generate_id_alnum (example_base 1 "LED #1: (red/green)" false None)). reflexivity. Defined.

Lemma capitalize_lower (w : string) : capitalize (str_lower w) = capitalize w.
Proof.
  destruct w as [|c w]; [done|]. cbn. rewrite upper_lower. f_equal.
  induction w as [|d w IH]; [done|]. cbn. by rewrite lower_lower, IH.
Qed.

Lemma map_capitalize_lower (l : list string) :
  map capitalize (map str_lower l) = map capitalize l.
Proof. induction l as [|w l IH]; [done|]. cbn. by rewrite capitalize_lower, IH. Qed.

(** X10. Identifier collisions: two display names of ASCII characters that
    have the same words up to the case of their letters, however the words
    are separated, derive the same identifier when the suffixes are
    equal. *)
Theorem generate_id_collision (b1 b2 : MenuBaseType) :
  id_ b1 = None → id_ b2 = None → id_suffix b1 = id_suffix b2 →
  is_ascii_str (name b1) = true → is_ascii_str (name b2) = true →
  map str_lower (spec_words (name b1)) = map str_lower (spec_words (name b2)) →
  generate_id b1 = generate_id b2.
Proof.
  intros H1 H2 Hs _ _ Hw. rewrite !generate_id_words, Hs by done. f_equal.
  by rewrite <- (map_capitalize_lower (spec_words (name b1))), Hw, map_capitalize_lower.
Qed.

Lemma generate_id_collision_witness :
  generate_id (example_base 1 "Main menu" true None)
  = generate_id (example_base 2 "main_MENU!" true None).
Proof. apply generate_id_collision; reflexivity. Defined.

Lemma spec_words_from_nil (cur s : string) :
  spec_words_from cur s = [] ↔ cur = "" ∧ str_forall (λ c, negb (isalnum c)) s = true.
Proof.
  revert cur. induction s as [|c s IH]; intros cur; cbn.
  - destruct cur; cbn; split; try done. by intros [? _].
  - destruct (isalnum c); cbn.
    + rewrite IH. split; [|by intros [_ ?]]. intros [H _]. by destruct cur.
    + rewrite app_nil, IH. destruct cur; cbn; split; try tauto; by intros [? _].
Qed.

Lemma spec_words_nonempty (s : string) : Forall (λ w, w ≠ "") (spec_words s).
Proof.
  rewrite spec_words_split. apply Forall_forall. intros w Hw.
  apply list_elem_of_filter in Hw as [Hne _]. unfold nonempty in Hne.
  intros ->. by cbn in Hne.
Qed.

Lemma str_length_app (s t : string) :
  String.length (s +:+ t) = (String.length s + String.length t)%nat.
Proof. induction s as [|c s IH]; [done|]. rewrite str_app_cons. cbn. by rewrite IH. Qed.

Lemma str_app_eq_r (s t : string) : s +:+ t = t → s = "".
Proof.
  intros H. apply (f_equal String.length) in H. rewrite str_length_app in H.
  destruct s; [done|]. cbn in H. lia.
Qed.

(** X11. For a display name of ASCII characters, the derived part of an
    identifier is empty exactly when the display name holds no alphanumeric
    character: such a node is known by its suffix alone. *)
Theorem generate_id_empty (b : MenuBaseType) :
  id_ b = None → is_ascii_str (name b) = true →
  (generate_id b = default "" (id_suffix b)
   ↔ str_forall (λ c, negb (isalnum c)) (name b) = true).
Proof.
  intros Hid _. rewrite generate_id_words by done. split.
  - intros H. apply str_app_eq_r in H.
    pose proof (spec_words_nonempty (name b)) as Hne.
    unfold spec_words in *.
    destruct (spec_words_from "" (name b)) as [|w ws] eqn:E.
    + by apply spec_words_from_nil in E as [_ ?].
    + exfalso. inversion Hne as [|? ? Hw _]; subst. cbn [map] in H.
      rewrite join_cons in H. destruct w as [|c w]; [done|]. discriminate H.
  - intros H. unfold spec_words.
    assert (spec_words_from "" (name b) = []) as -> by (by apply spec_words_from_nil).
    reflexivity.
Qed.

Lemma generate_id_empty_witness :
  generate_id {| _global_index := 1; id_ := None; id_suffix := Some "Sep";
                 name := "-- * --"; persistent := false; read_only := false;
                 local_only := false; visible := true; callback := None |} = "Sep".
Proof. apply generate_id_empty; reflexivity. Defined.

End IdentifierExtras.

(** ** Properties of the callback registry beyond the claims *)

Section CallbackExtras.

Implicit Types (x : string * string) (callback_list : gset (string * string)).

Lemma elem_of_foldl_union (f : MenuNode → gset (string * string)) items callback_list x :
  x ∈ foldl (λ acc item, acc ∪ f item) callback_list items
  ↔ x ∈ callback_list ∨ ∃ item, item ∈ items ∧ x ∈ f item.
Proof.
  revert callback_list. induction items as [|i items IH]; intros callback_list; cbn.
  - split; [auto|]. intros [?|(? & Hin & _)]; [done|]. by apply elem_of_nil in Hin.
  - rewrite IH, elem_of_union. split.
    + intros [[?|?]|(item & Hin & Hx)]; [auto|right..].
      * exists i. split; [left|done].
      * exists item. split; [by right|done].
    + intros [?|(item & Hin & Hx)]; [auto|].
      apply elem_of_cons in Hin as [->|Hin]; [auto|]. right. eauto.
Qed.

(** What a node registers by itself, as [MenuBaseType.list_callbacks] and
    the override of [ScrollChoiceType] compute it. *)
Lemma registers_own (d : MenuNode) x :
  registers d x ↔
  x ∈ (match callback (base d) with
       | Some c => {[ ("on_change", c) ]}
       | None => (∅ : gset (string * string))
       end)
      ∪ (match d with
         | ScrollChoiceType _ _ _ custom_renderfn a => {[ ("on_render", a) ]}
         | _ => ∅
         end).
Proof.
  destruct x as [kind cb]. unfold registers. cbn. rewrite elem_of_union. split.
  - intros [[-> Hc]|[-> (b & isz & it & ->)]].
    + left. rewrite Hc. by apply elem_of_singleton.
    + right. by apply elem_of_singleton.
  - intros [H|H].
    + left. destruct (callback (base d)) as [c|]; [|by apply elem_of_empty in H].
      apply elem_of_singleton in H. by inversion H.
    + right. destruct d as [| | | |b isz it [] a| | |];
        try (by apply elem_of_empty in H).
      apply elem_of_singleton in H. inversion H; subst. eauto.
Qed.

Lemma list_callbacks_subtree (self : MenuNode) :
  ∀ x, x ∈ list_callbacks self ↔ ∃ d, d ∈ subtree self ∧ registers d x.
Proof.
  revert self.
  apply (MenuNode_nested_ind (λ self, ∀ x,
           x ∈ list_callbacks self ↔ ∃ d, d ∈ subtree self ∧ registers d x));
    [intros n|intros b items auth IH].
  - destruct n as [b ? ? ? ?|b ? ? ?|b ?|b opts|b ? ? md addr|b ?|b items auth|b]; [..|done|];
      intros x; (split; [intros H; eexists; split; [by left|]; apply registers_own
                        |intros (d & ->%list_elem_of_singleton & H);
                         apply registers_own in H]);
      cbn [list_callbacks base] in *; try destruct md;
      revert H; rewrite ?elem_of_union; intros H;
      repeat match goal with
             | H : _ ∨ _ |- _ => destruct H as [H|H]
             | H : _ ∈ ∅ |- _ => by apply elem_of_empty in H
             end; auto.
  - intros x. cbn [list_callbacks subtree]. rewrite elem_of_foldl_union. split.
    + intros [H|(item & Hin & Hx)].
      * eexists. split; [by left|]. apply registers_own. apply elem_of_union. by left.
      * rewrite Forall_forall in IH. apply (IH _ Hin) in Hx as (d & Hd & Hr).
        exists d. split; [|done]. right. apply list_elem_of_In, in_flat_map.
        exists item. split; by apply list_elem_of_In.
    + intros (d & Hd & Hr). apply elem_of_cons in Hd as [->|Hd].
      * left. apply registers_own in Hr. cbn [base] in Hr.
        apply elem_of_union in Hr as [?|Hr]; [done|by apply elem_of_empty in Hr].
      * right. apply list_elem_of_In, in_flat_map in Hd as (item & Hin & Hd).
        apply list_elem_of_In in Hin, Hd. exists item. split; [done|].
        rewrite Forall_forall in IH. apply (IH _ Hin). eauto.
Qed.

Lemma callback_list_of_subtree (desc_items : list MenuNode) x :
  x ∈ callback_list_of desc_items
  ↔ ∃ item d, item ∈ desc_items ∧ d ∈ subtree item ∧ registers d x.
Proof.
  unfold callback_list_of. rewrite elem_of_foldl_union. split.
  - intros [H|(item & Hin & Hx)]; [by apply elem_of_empty in H|].
    apply list_callbacks_subtree in Hx as (d & ? & ?). eauto.
  - intros (item & d & Hin & Hd & Hr). right. exists item. split; [done|].
    apply list_callbacks_subtree. eauto.
Qed.

(** X12. The callback list accumulated over a descriptor holds exactly
    the pairs that some node of the forest registers, at any depth: the
    [callback] attribute of a node as an "on_change" callback, and the
    address of a ScrollChoice with a custom render function as an
    "on_render" callback; nothing else is in it. *)
Theorem callback_list_collects_subtrees (desc_items : list MenuNode) (x : string * string) :
  x ∈ callback_list_of desc_items
  ↔ ∃ item d, item ∈ desc_items ∧ d ∈ subtree item ∧ registers d x.
Proof. apply callback_list_of_subtree. Qed.

(** The prototypes that the loop writes when it returns. *)
Lemma do_codegen_callbacks_protos (l : list (string * string)) (seen : gmap string string)
    (bufcb bufcb' : list CbProto) :
  do_codegen_callbacks l seen bufcb = (inr (), bufcb') →
  bufcb' = bufcb ++ omap callback_proto l.
Proof.
  revert seen bufcb. induction l as [|[kind cb_ref] l IH]; intros seen bufcb H.
  { cbn in H. em_unfold. inversion H. by rewrite app_nil_r. }
  cbn in H. case_bool_decide as Hs; [em_unfold; discriminate|].
  unfold callback_proto at 1. cbn [omap list_omap fst snd].
  em_unfold. repeat case_bool_decide; cbn in H; apply IH in H; subst;
    by rewrite <- ?app_assoc.
Qed.

(** The kinds in the callback list of a descriptor are the two known ones. *)
Lemma callback_list_kinds (desc_items : list MenuNode) (x : string * string) :
  x ∈ callback_list_of desc_items → is_Some (callback_proto x).
Proof.
  intros (item & d & _ & _ & [[Hk _]|[Hk _]])%callback_list_of_subtree;
    unfold callback_proto; rewrite Hk; cbn; eauto.
Qed.

(** X13. When the overlap check passes, the callback header gets, after
    what it held, one prototype for every pair of the callback list, in the
    order of the enumeration: [void f(int id)] for an "on_change" pair and
    the render function signature for an "on_render" pair. *)
Theorem do_codegen_callbacks_header (desc_items : list MenuNode)
    (l : list (string * string)) (bufcb bufcb' : list CbProto) :
  l ≡ₚ elements (callback_list_of desc_items) →
  do_codegen_callbacks l ∅ bufcb = (inr (), bufcb') →
  bufcb' = bufcb ++ omap callback_proto l
  ∧ Forall2 (λ x proto, callback_proto x = Some proto) l (omap callback_proto l).
Proof.
  intros Hperm H. split; [by eapply do_codegen_callbacks_protos|].
  assert (Forall (λ x, is_Some (callback_proto x)) l) as Hk.
  { apply Forall_forall. intros x Hx. apply (callback_list_kinds desc_items).
    rewrite Hperm in Hx. by apply elem_of_elements in Hx. }
  clear H Hperm. induction Hk as [|x l [p Hp] _ IH]; [constructor|].
  cbn. rewrite Hp. by constructor.
Qed.

Lemma do_codegen_callbacks_header_witness :
  snd (do_codegen_callbacks
         (elements (callback_list_of [gain_node "onGain"; mode_node "renderMode"])) ∅ [])
  = omap callback_proto
      (elements (callback_list_of [gain_node "onGain"; mode_node "renderMode"])).
Proof.
  destruct (do_codegen_callbacks_header [gain_node "onGain"; mode_node "renderMode"]
              (elements (callback_list_of [gain_node "onGain"; mode_node "renderMode"])) []
              (snd (do_codegen_callbacks
                      (elements (callback_list_of
                                   [gain_node "onGain"; mode_node "renderMode"])) ∅ [])))
    as [H _].
  - reflexivity.
  - vm_compute. reflexivity.
  - exact H.
Defined.

End CallbackExtras.

(** ** Loading a map file beyond the round trip *)

Section LoadExtras.

Import EEPROMMap.

Context {File : Type} (yaml_load : File → YamlDoc).

(** X14. On a map file that holds a mapping whose values, where a key is
    present, have the types [save] writes ([YamlDoc]), [load] needs the keys
    'capacity', 'varstore-bar' and 'auto-index': it raises [KeyError] for
    the first of them, in this order, that the file does not have, and
    returns a map otherwise. The two other keys are optional: without 'vars'
    the map holds the reserved slot alone, without 'spare-segments' it has
    no spare segment; the numbers the file gives are taken as they are. *)
Theorem load_missing_keys (fmap : File) :
  let doc := yaml_load fmap in
  match load yaml_load fmap with
  | inl e =>
      (doc_capacity doc = None ∧ e = KeyError "capacity")
      ∨ (is_Some (doc_capacity doc) ∧ doc_varstore_bar doc = None
         ∧ e = KeyError "varstore-bar")
      ∨ (is_Some (doc_capacity doc) ∧ is_Some (doc_varstore_bar doc)
         ∧ doc_auto_index doc = None ∧ e = KeyError "auto-index")
  | inr m =>
      doc_capacity doc = Some (capacity m)
      ∧ doc_varstore_bar doc = Some (varstore_bar m)
      ∧ doc_auto_index doc = Some (_auto_index m)
      ∧ data m = default {[ "_reserved" := {| offset := 0; size := 2 |} ]} (doc_vars doc)
      ∧ spare_segments m = default ∅ (doc_spare_segments doc)
  end.
Proof.
  cbn zeta. unfold load.
  destruct (yaml_load fmap) as [[c|] [v|] [i|] vars segs]; cbn; eauto 10.
  repeat split.
  - destruct vars; cbn; [apply (right_id_L ∅ (∪))|done].
  - destruct segs; cbn; [apply (right_id_L ∅ (∪))|done].
Qed.

End LoadExtras.

(** ** Construction of the entries *)

Section ConstructorExtras.

(** X15. Constructing an entry takes one global index whether it succeeds
    or not: the class counter is advanced by one before the properties are
    read, a node that is built carries the value the counter had, and the
    construction fails, with a [ValueError] naming the property, exactly when
    'name' is missing. *)
Theorem MenuBaseType_init_index (props : BaseProps) (auto_index : Z) :
  match MenuBaseType___init__ props auto_index with
  | (inr b, auto_index') =>
      auto_index' = auto_index + 1 ∧ _global_index b = auto_index
      ∧ p_name props = Some (name b)
  | (inl e, auto_index') =>
      auto_index' = auto_index + 1 ∧ p_name props = None
      ∧ e = ValueError "Required property name is missing."
  end.
Proof.
  unfold MenuBaseType___init__. em_unfold. destruct (p_name props); cbn; auto.
Qed.

Lemma MenuBaseType_init_inr props c b c' :
  MenuBaseType___init__ props c = (inr b, c') → c' = c + 1 ∧ _global_index b = c.
Proof.
  unfold MenuBaseType___init__. em_unfold. destruct (p_name props); cbn; [|done].
  intros H. inversion H; subst. done.
Qed.

Lemma mapM_init_indices (propss : list BaseProps) :
  ∀ c bs c', mapM MenuBaseType___init__ propss c = (inr bs, c') →
  c' = c + Z.of_nat (length propss)
  ∧ _global_index <$> bs = seqZ c (Z.of_nat (length propss)).
Proof.
  induction propss as [|props propss IH]; intros c bs c' H.
  - cbn in H. em_unfold. inversion H; subst. cbn [length]. split; [lia|]. reflexivity.
  - cbn [mapM] in H. unfold mbind at 1 in H. unfold EM_bind at 1 in H.
    destruct (MenuBaseType___init__ props c) as [[e|b] c1] eqn:E; [discriminate|].
    apply MenuBaseType_init_inr in E as [-> Hb].
    unfold mbind at 1 in H. unfold EM_bind at 1 in H.
    destruct (mapM MenuBaseType___init__ propss (c + 1)) as [[e|bs'] c2] eqn:E2;
      [discriminate|].
    apply IH in E2 as [-> Hbs]. em_unfold. inversion H; subst.
    split; [cbn [length]; lia|].
    cbn [length fmap list_fmap]. rewrite Nat2Z.inj_succ, seqZ_cons by lia.
    f_equal. rewrite Z.pred_succ. exact Hbs.
Qed.

(** X16. Global index monotonicity: when entries are constructed one
    after the other and all are built, their global indices are the
    consecutive integers from the value the counter had at the start, in
    construction order, without gap or repeat, and the counter ends that many
    above. *)
Theorem global_indices_consecutive (propss : list BaseProps) (auto_index auto_index' : Z)
    (bs : list MenuBaseType) :
  mapM MenuBaseType___init__ propss auto_index = (inr bs, auto_index') →
  auto_index' = auto_index + Z.of_nat (length propss)
  ∧ _global_index <$> bs = seqZ auto_index (Z.of_nat (length propss)).
Proof. apply mapM_init_indices. Qed.

(** X17. Validation of an Analog entry (with a name): 'offset' and 'min'
    are mutually exclusive, and exactly one of 'precision' and 'max' must be
    given; the three ways to break this give three different [ValueError]s,
    the one about the offset first. When the entry is built, its offset is
    the given offset, else the given minimum, else 0; its precision is the
    given one, or such that offset + precision is the given maximum; the
    divisor defaults to 1. *)
Theorem AnalogType_init_validation (props : BaseProps) (aprops : AnalogProps)
    (auto_index : Z) :
  is_Some (p_name props) →
  match AnalogType___init__ props aprops auto_index with
  | (inr node, _) =>
      ∃ b precision_ offset_,
        node = AnalogType b precision_ offset_ (default 1 (p_divisor aprops)) (p_unit aprops)
        ∧ (p_offset aprops = None ∨ p_min aprops = None)
        ∧ offset_ = default (default 0 (p_min aprops)) (p_offset aprops)
        ∧ match p_precision aprops with
          | Some p => p_max aprops = None ∧ precision_ = p
          | None => ∃ mx, p_max aprops = Some mx ∧ offset_ + precision_ = mx
          end
  | (inl e, _) =>
      (is_Some (p_offset aprops) ∧ is_Some (p_min aprops)
       ∧ e = ValueError "Offset and min are mutually exclusive.")
      ∨ ((p_offset aprops = None ∨ p_min aprops = None)
         ∧ p_precision aprops = None ∧ p_max aprops = None
         ∧ e = ValueError "One of precision or max must be specified.")
      ∨ ((p_offset aprops = None ∨ p_min aprops = None)
         ∧ is_Some (p_precision aprops) ∧ is_Some (p_max aprops)
         ∧ e = ValueError "Precision and max are mutually exclusive.")
  end.
Proof.
  intros [n Hn]. unfold AnalogType___init__, MenuBaseType___init__. em_unfold.
  rewrite Hn. cbn.
  destruct aprops as [[mx|] [mn|] [p|] [o|] d u]; cbn; eauto 12;
    try (eexists _, _, _; repeat split; eauto; try (eexists; split; [done|lia]); done).
Qed.

Lemma AnalogType_init_validation_witness :
  ∃ b c', AnalogType___init__
            {| p_id := None; p_id_suffix := None; p_name := Some "Level";
               p_persistent := Some true; p_read_only := None; p_local_only := None;
               p_visible := None; p_callback := None |}
            {| p_max := Some 100; p_min := Some (-20); p_precision := None;
               p_offset := None; p_divisor := None; p_unit := Some "dB" |} 1
          = (inr (AnalogType b 120 (-20) 1 (Some "dB")), c').
Proof.
  pose proof (AnalogType_init_validation
                {| p_id := None; p_id_suffix := None; p_name := Some "Level";
                   p_persistent := Some true; p_read_only := None; p_local_only := None;
                   p_visible := None; p_callback := None |}
                {| p_max := Some 100; p_min := Some (-20); p_precision := None;
                   p_offset := None; p_divisor := None; p_unit := Some "dB" |} 1
                (ex_intro _ "Level" eq_refl)) as H.
  destruct (AnalogType___init__ _ _ 1) as [[e|node] c'] eqn:E.
  - exfalso. vm_compute in E. discriminate E.
  - destruct H as (b & prec & off & -> & _ & Hoff & mx & Hmx & Hp).
    cbn in Hoff, Hmx. inversion Hmx; subst mx. subst off.
    assert (prec = 120) as -> by lia.
    exists b, c'. reflexivity.
Defined.

Lemma global_indices_consecutive_witness :
  let propss :=
    [ {| p_id := None; p_id_suffix := None; p_name := Some "Enable";
         p_persistent := Some true; p_read_only := None; p_local_only := None;
         p_visible := None; p_callback := None |};
      {| p_id := None; p_id_suffix := None; p_name := Some "Reset";
         p_persistent := None; p_read_only := None; p_local_only := None;
         p_visible := None; p_callback := Some "onReset" |} ] in
  ∃ bs, mapM MenuBaseType___init__ propss 1 = (inr bs, 3)
        ∧ _global_index <$> bs = [1; 2].
Proof.
  intros propss. eexists. split; [reflexivity|].
  exact (proj2 (global_indices_consecutive propss 1 3 _ eq_refl)).
Defined.

End ConstructorExtras.

(** ** The data source of a ScrollChoice *)

Section DataSourceExtras.

Lemma str_split_cons (sep : ascii) (s : string) : ∃ w ws, str_split sep s = w :: ws.
Proof.
  induction s as [|c s (w & ws & IH)]; cbn; [eauto|].
  destruct (Ascii.eqb c sep); [eauto|]. rewrite IH. eauto.
Qed.

(** Joining the pieces of a split with the separator gives the string
    back, and no piece holds the separator. *)
Lemma concat_cons_cons (sep x y : string) (l : list string) :
  String.concat sep (x :: y :: l) = x +:+ sep +:+ String.concat sep (y :: l).
Proof. reflexivity. Qed.

Lemma str_split_concat (sep : ascii) (s : string) :
  String.concat (String sep "") (str_split sep s) = s.
Proof.
  induction s as [|c s IH]; [done|]. cbn [str_split].
  destruct (str_split_cons sep s) as (w & ws & Hs). rewrite Hs in IH |- *.
  destruct (Ascii.eqb c sep) eqn:E.
  - apply Ascii.eqb_eq in E. subst c. by rewrite concat_cons_cons, IH.
  - destruct ws as [|y l].
    + change (w = s) in IH. change (String c w = String c s). by rewrite IH.
    + rewrite concat_cons_cons in *. by rewrite <- IH.
Qed.

Lemma str_split_pieces (sep : ascii) (s : string) :
  Forall (λ w, str_forall (λ c, negb (Ascii.eqb c sep)) w = true) (str_split sep s).
Proof.
  induction s as [|c s IH]; cbn [str_split]; [by repeat constructor|].
  destruct (Ascii.eqb c sep) eqn:E; [by constructor|].
  destruct (str_split sep s) as [|w ws]; [repeat constructor; cbn; by rewrite E|].
  inversion IH; subst. constructor; [|done]. cbn. by rewrite E.
Qed.

Lemma str_split_no_sep (sep : ascii) (s : string) :
  str_forall (λ c, negb (Ascii.eqb c sep)) s = true → str_split sep s = [s].
Proof.
  induction s as [|c s IH]; [done|]. cbn. intros [Hc Hs]%andb_true_iff.
  apply negb_true_iff in Hc. by rewrite Hc, IH.
Qed.

Lemma str_split_app (sep : ascii) (s t : string) :
  str_forall (λ c, negb (Ascii.eqb c sep)) s = true →
  str_split sep (s +:+ String sep t) = s :: str_split sep t.
Proof.
  induction s as [|c s IH]; cbn.
  - intros _. rewrite str_app_nil_l. cbn. by rewrite Ascii.eqb_refl.
  - intros [Hc Hs]%andb_true_iff. apply negb_true_iff in Hc.
    rewrite str_app_cons. cbn. by rewrite Hc, IH.
Qed.

Lemma mode_name_no_colon (m : DataSourceMode) :
  str_forall (λ c, negb (Ascii.eqb c colon)) (mode_name m) = true.
Proof. by destruct m. Qed.

Lemma mode_of_string_name (m : DataSourceMode) : mode_of_string (mode_name m) = m.
Proof. by destruct m. Qed.

Lemma valid_mode_name (mode : string) :
  mode ∈ map mode_name valid_modes → mode_name (mode_of_string mode) = mode.
Proof.
  cbn. rewrite !elem_of_cons, elem_of_nil.
  intros [->|[->|[->|[->|[->|[]]]]]]; reflexivity.
Qed.

(** X18. The 'data-source' of a ScrollChoice is accepted exactly when it
    is one of the five mode names, a colon, and an address without colon;
    the mode and the address that the node keeps are these two parts, so
    that the property can be read back as mode ":" address. A missing
    property, no colon, several colons or an unknown mode raise
    [ValueError]. *)
Theorem ScrollChoiceType_data_source_parse (entry : option string) (m : DataSourceMode)
    (address : string) :
  ScrollChoiceType_data_source entry = inr (m, address)
  ↔ entry = Some (mode_name m +:+ String colon address)
    ∧ str_forall (λ c, negb (Ascii.eqb c colon)) address = true.
Proof.
  unfold ScrollChoiceType_data_source, _validate_data_source. split.
  - destruct entry as [ds|]; cbn [_validate_entry_required]; [|done].
    pose proof (str_split_concat colon ds) as Hc.
    pose proof (str_split_pieces colon ds) as Hp.
    destruct (str_split colon ds) as [|mode [|addr [|? ?]]]; try done.
    case_bool_decide as Hm; [|done]. intros H. inversion H; subst m address.
    apply valid_mode_name in Hm. rewrite Hm. split.
    + f_equal. rewrite <- Hc. reflexivity.
    + inversion Hp as [|? ? _ Hp']; subst. by inversion Hp'.
  - intros [-> Ha]. cbn [_validate_entry_required].
    rewrite str_split_app by apply mode_name_no_colon.
    rewrite str_split_no_sep by done.
    rewrite bool_decide_eq_true_2.
    + by rewrite mode_of_string_name.
    + apply list_elem_of_In, in_map. destruct m; cbn; tauto.
Qed.

(** What is raised otherwise is one of the three validation errors. *)
Lemma ScrollChoiceType_data_source_errors (entry : option string) (e : exn) :
  ScrollChoiceType_data_source entry = inl e → ∃ msg, e = ValueError msg.
Proof.
  unfold ScrollChoiceType_data_source, _validate_data_source.
  destruct entry as [ds|]; cbn [_validate_entry_required]; [|intros H; inversion H; eauto].
  destruct (str_split colon ds) as [|mode [|addr [|? ?]]];
    try case_bool_decide; intros He; inversion He; eauto.
Qed.

(** X19. Every tag under which [YAML_TAG_SUFFIXES] builds a Boolean has a
    default in the table of [BooleanType.__init__], and that default passes
    [_validate_response]: a Boolean entry without 'response' is always
    given one of the three known responses, and a tag that is not in
    [YAML_TAG_SUFFIXES] is refused with a [RuntimeError]. *)
Theorem boolean_aliases_have_default (alias : string) :
  (dict_get YAML_TAG_SUFFIXES alias = Some BooleanClass →
   ∃ r, BooleanType_response alias None = inr (response_name r))
  ∧ (dict_get YAML_TAG_SUFFIXES alias = None →
     tcdesc_multi_constructor_class alias
     = inl (RuntimeError ("Unknown TCMenu menu entry type " +:+ alias))).
Proof.
  split.
  - unfold YAML_TAG_SUFFIXES. cbn [dict_get].
    repeat (case_bool_decide;
            [subst alias; intros Heq; try discriminate Heq;
             first [by exists true_false | by exists on_off | by exists yes_no]|]).
    discriminate.
  - intros H. unfold tcdesc_multi_constructor_class. by rewrite H.
Qed.

End DataSourceExtras.

(** ** C++ string literals and file names *)

Section TextExtras.

Lemma escape_quotes_head (s : string) (d : ascii) (r : string) :
  escape_quotes s = String d r → Ascii.eqb d dquote = false.
Proof.
  destruct s as [|c s]; cbn [escape_quotes]; [done|].
  destruct (Ascii.eqb c dquote) eqn:E; intros H; inversion H; subst; [reflexivity|done].
Qed.

Lemma unescape_escape (s : string) : unescape_quotes (escape_quotes s) = s.
Proof.
  induction s as [|c s IH]; [done|]. cbn [escape_quotes].
  destruct (Ascii.eqb c dquote) eqn:E.
  - apply Ascii.eqb_eq in E. subst c.
    change (unescape_quotes (String backslash (String dquote (escape_quotes s))))
      with (String dquote (unescape_quotes (escape_quotes s))).
    by rewrite IH.
  - destruct (escape_quotes s) as [|d r] eqn:Es.
    + destruct s as [|x s]; [done|]. cbn [escape_quotes] in Es.
      destruct (Ascii.eqb x dquote); discriminate.
    + change (unescape_quotes (String c (String d r)))
        with (if Ascii.eqb c backslash && Ascii.eqb d dquote
              then String d (unescape_quotes r)
              else String c (unescape_quotes (String d r))).
      by rewrite (escape_quotes_head _ _ _ Es), andb_false_r, IH.
Qed.

Lemma str_app_inj_last (s t : string) (c : ascii) :
  s +:+ String c "" = t +:+ String c "" → s = t.
Proof.
  revert t. induction s as [|x s IH]; intros [|y t] H; cbn in H.
  - done.
  - rewrite str_app_nil_l, str_app_cons in H. inversion H as [[Hc Ht]].
    destruct t; discriminate.
  - rewrite str_app_nil_l, str_app_cons in H. inversion H as [[Hc Ht]].
    destruct s; discriminate.
  - rewrite !str_app_cons in H. inversion H. f_equal. by apply IH.
Qed.

(** X20. [cppstr] puts the text between quotation marks with a backslash
    in front of every quotation mark of the text and nothing else changed:
    removing these backslashes gives the text back, so two different texts
    never get the same literal. *)
Theorem cppstr_injective (s t : string) :
  (∃ body, cppstr s = String dquote (body +:+ String dquote "")
           ∧ unescape_quotes body = s)
  ∧ (cppstr s = cppstr t → s = t).
Proof.
  split.
  - exists (escape_quotes s). split; [done|apply unescape_escape].
  - unfold cppstr. intros H. inversion H as [H'].
    apply str_app_inj_last in H'.
    by rewrite <- (unescape_escape s), H', unescape_escape.
Qed.

Lemma str_take_app (s t : string) : str_take (String.length s) (s +:+ t) = s.
Proof. induction s as [|c s IH]; [by destruct t|]. rewrite str_app_cons. cbn. by rewrite IH. Qed.

Lemma str_drop_app (s t : string) : str_drop (String.length s) (s +:+ t) = t.
Proof. induction s as [|c s IH]; [by destruct t|]. rewrite str_app_cons. by cbn. Qed.

Lemma str_endswith_app (s t : string) : str_endswith (s +:+ t) t = true.
Proof.
  unfold str_endswith. rewrite str_length_app.
  replace (String.length s + String.length t - String.length t)%nat
    with (String.length s) by lia.
  rewrite str_drop_app, String.eqb_refl, andb_true_r. apply Nat.leb_le. lia.
Qed.

(** X21. For a descriptor file named [stem.tcmdesc.yaml] with a
    non-empty stem, the instance name is the stem, whatever the stem holds,
    and the default map file is [stem.tcmmap.yaml]; a file name that does not
    end with the suffix, or is the suffix alone, is left to
    [os.path.splitext]. *)
Theorem desc_instance_name_standard (splitext_root : string → string) (stem : string) :
  stem ≠ "" →
  desc_instance_name splitext_root (stem +:+ DESC_SUFFIX) = stem
  ∧ eeprom_map_basename (desc_instance_name splitext_root (stem +:+ DESC_SUFFIX))
    = stem +:+ MAP_SUFFIX
  ∧ desc_instance_name splitext_root DESC_SUFFIX = splitext_root DESC_SUFFIX
  ∧ (∀ base, str_endswith base DESC_SUFFIX = false →
             desc_instance_name splitext_root base = splitext_root base).
Proof.
  intros Hne.
  assert (desc_instance_name splitext_root (stem +:+ DESC_SUFFIX) = stem) as E.
  { unfold desc_instance_name. rewrite str_endswith_app, str_length_app.
    replace (String.length stem + String.length DESC_SUFFIX - String.length DESC_SUFFIX)%nat
      with (String.length stem) by lia.
    rewrite str_take_app.
    assert ((String.length DESC_SUFFIX <? String.length stem + String.length DESC_SUFFIX)%nat
            = true) as ->; [|done].
    apply Nat.ltb_lt. destruct stem; [done|]. cbn. lia. }
  split; [done|]. split; [by rewrite E|]. split; [reflexivity|].
  intros base Hb. unfold desc_instance_name. by rewrite Hb, andb_false_r.
Qed.

Lemma desc_instance_name_standard_witness :
  desc_instance_name (λ s, s) "main.menu.tcmdesc.yaml" = "main.menu"
  ∧ eeprom_map_basename (desc_instance_name (λ s, s) "main.menu.tcmdesc.yaml")
    = "main.menu.tcmmap.yaml".
Proof.
  destruct (desc_instance_name_standard (λ s, s) "main.menu") as (H1 & H2 & _).
  - discriminate.
  - split; [exact H1|exact H2].
Defined.

End TextExtras.

Lemma ScrollChoiceType_data_source_parse_witness :
  ScrollChoiceType_data_source (Some "array-in-ram:choices") = inr (array_in_ram, "choices").
Proof. apply ScrollChoiceType_data_source_parse. split; reflexivity. Defined.

Lemma boolean_aliases_have_default_witness :
  ∃ r, BooleanType_response "switch" None = inr (response_name r).
Proof. apply (proj1 (boolean_aliases_have_default "switch")). reflexivity. Defined.

Lemma cppstr_injective_witness :
  ∃ body, cppstr (String dquote "hi") = String dquote (body +:+ String dquote "")
          ∧ unescape_quotes body = String dquote "hi".
Proof. apply (proj1 (cppstr_injective (String dquote "hi") "")). Defined.

(** ** Composition of allocations and of namespaces *)

Section CompositionExtras.

Import EEPROMMap.

(** X22. Bump allocation leaves no hole: a slot allocated right after
    another one starts at the byte where that one ends, and the cursor has
    then advanced by the two sizes. *)
Theorem auto_allocate_contiguous (key1 key2 : string) (sz1 sz2 : Z)
    (m m1 m2 : EEPROMMap.t) (a1 a2 : OffSize) :
  auto_allocate key1 sz1 m = (inr a1, m1) →
  auto_allocate key2 sz2 m1 = (inr a2, m2) →
  offset a2 = offset a1 + size a1
  ∧ _auto_index m2 = _auto_index m + sz1 + sz2.
Proof.
  intros (-> & _ & H1)%auto_allocate_inr (-> & _ & H2)%auto_allocate_inr.
  cbn. lia.
Qed.

Lemma auto_allocate_contiguous_witness :
  ∃ a1 m1 a2 m2,
    auto_allocate "Enable" 1 (__init__ 100 0) = (inr a1, m1)
    ∧ auto_allocate "Level" 2 m1 = (inr a2, m2)
    ∧ offset a1 = 2 ∧ offset a2 = 3 ∧ _auto_index m2 = 5.
Proof.
  eexists _, _, _, _. split; [reflexivity|]. split; [reflexivity|].
  destruct (auto_allocate_contiguous "Enable" "Level" 1 2 (__init__ 100 0) _ _ _ _
              eq_refl eq_refl) as [H1 H2].
  split; [reflexivity|]. split; [exact H1|exact H2].
Defined.

Lemma join_app (l1 l2 : list string) : join (l1 ++ l2) = join l1 +:+ join l2.
Proof.
  induction l1 as [|w l1 IH]; [done|].
  rewrite <- app_comm_cons, !join_cons, IH. by rewrite str_app_assoc.
Qed.

Lemma ns_id_of_snoc (namespace : list MenuNode) (self : MenuNode) :
  ns_id_of (namespace ++ [self]) = ns_id_of namespace +:+ generate_id (base self).
Proof.
  unfold ns_id_of. rewrite map_app, join_app. cbn [map]. unfold join at 2.
  cbn [concat]. reflexivity.
Qed.

(** X23. Namespaces nest by concatenation: when the emission of a sub-menu
    returns, the entry of each of its items has been defined under "menu",
    the namespace prefix of the sub-menu, the identifier of the sub-menu and
    the identifier of the item, in this order; the back item is defined
    under "menuback", the prefix and the identifier of the sub-menu, and
    refers to the first item by that name; the entry of the sub-menu, under
    "menu", the prefix and its identifier, is defined last. *)
Theorem submenu_symbols_nest b items auth ctx st st' :
  let self := SubMenuType b items auth in
  let prefix := ns_id_of (namespace ctx) +:+ generate_id b in
  emit_code self ctx st = (inr (), st') →
  ∃ stmts, bufsrc st' = bufsrc st ++ stmts
    ∧ (∀ child, child ∈ items →
         ∃ type_ args,
           SItem ("menu" +:+ prefix +:+ generate_id (base child)) type_ args ∈ stmts)
    ∧ (∃ first_child rest,
         items = first_child :: rest
         ∧ SItem ("menuback" +:+ prefix) "BackMenuItem"
             [VTok ("fn" +:+ prefix +:+ "RtCall");
              VRef ("menu" +:+ prefix +:+ generate_id (base first_child))] ∈ stmts)
    ∧ (∃ args, last stmts = Some (SItem ("menu" +:+ prefix) "SubMenuItem" args)).
Proof.
  intros self prefix H.
  pose proof (emit_code_submenu_run b items auth ctx st) as E. cbn zeta in E.
  fold self in E. rewrite E in H. clear E.
  destruct (emit_items emit_code _ _ items st) as [[e|[]] st1] eqn:Ei; [done|].
  destruct items as [|items_0 rest] eqn:Eitems; [done|]. rewrite <- Eitems in *.
  destruct (persistent b); [done|].
  inversion H; subst st'; clear H. cbn [bufsrc].
  apply emit_items_emitted, items_emitted_chain in Ei as (stmts1 & E1 & Hchain).
  assert (∀ child, symbol_of (namespace ctx ++ [self]) child
                   = "menu" +:+ prefix +:+ generate_id (base child)) as Hsym.
  { intros child. unfold symbol_of, prefix. rewrite ns_id_of_snoc.
    by rewrite !str_app_assoc. }
  exists (stmts1 ++ submenu_tail_src self ctx items_0).
  split; [by rewrite E1, app_assoc|].
  split; [|split].
  - intros child [i Hi]%list_elem_of_lookup.
    destruct (Hchain i child Hi) as (type_ & args & Hin & _).
    exists type_, args. rewrite <- Hsym. apply elem_of_app. by left.
  - exists items_0, rest. split; [done|].
    apply elem_of_app. right. unfold submenu_tail_src.
    rewrite Hsym. unfold back_symbol_of. 
    replace ("fn" +:+ ns_id_of (namespace ctx) +:+ generate_id (base self) +:+ "RtCall")
      with ("fn" +:+ prefix +:+ "RtCall").
    2:{ unfold prefix. cbn [base self]. by rewrite !str_app_assoc. }
    cbn [base self]. fold prefix. 
    right. left.
  - eexists. unfold submenu_tail_src.
    change [?a; ?b; ?c; ?d] with ([a; b; c] ++ [d]).
    rewrite app_assoc. rewrite last_snoc. reflexivity.
Qed.

Lemma submenu_symbols_nest_witness :
  ∃ st' stmts,
    emit_code settings_node (example_ctx []) example_state = (inr (), st')
    ∧ bufsrc st' = bufsrc example_state ++ stmts
    ∧ (∃ type_ args, SItem "menuSettingsLevel" type_ args ∈ stmts)
    ∧ (∃ args, last stmts = Some (SItem "menuSettings" "SubMenuItem" args)).
Proof.
  pose (r := emit_code settings_node (example_ctx []) example_state).
  assert (r = (inr (), snd r)) as Hr by (vm_compute; reflexivity).
  destruct (submenu_symbols_nest (example_base 2 "Settings" false None) [level_node] false
              (example_ctx []) example_state (snd r) Hr)
    as (stmts & E & Hchild & _ & Hown).
  exists (snd r), stmts. split; [exact Hr|]. split; [exact E|]. split.
  - apply (Hchild level_node). left.
  - exact Hown.
Defined.

End CompositionExtras.

(** ** The root getter and the default flags *)

Section DoCodegenExtras.

Lemma do_codegen_items_inr desc_items pg st cl st' :
  do_codegen_items desc_items pg st = (inr cl, st') →
  emit_items emit_code [] pg desc_items st = (inr (), st').
Proof.
  unfold do_codegen_items. em_unfold.
  destruct (emit_items emit_code [] pg desc_items st) as [[e|[]] s1]; [done|].
  intros H. by inversion H.
Qed.

Lemma items_emitted_head ns pg item rest st st' :
  items_emitted ns pg (item :: rest) st st' →
  ∃ stmts type_ args, bufsrc st' = bufsrc st ++ stmts
                      ∧ SItem (symbol_of ns item) type_ args ∈ stmts.
Proof. apply items_emitted_first. Qed.

(** X24. Root contract: after a traversal that returns, the symbol put in
    [getRootMenuItem] is the one under which the first top-level item has
    been defined in the source; with no top-level item at all the traversal
    writes nothing and the getter raises [IndexError]. *)
Theorem do_codegen_root_defined (desc_items : list MenuNode) (use_pgmspace : bool)
    (st st' : EmitState) (callback_list : gset (string * string)) :
  do_codegen_items desc_items use_pgmspace st = (inr callback_list, st') →
  match do_codegen_root desc_items with
  | inr root =>
      ∃ stmts type_ args, bufsrc st' = bufsrc st ++ stmts ∧ SItem root type_ args ∈ stmts
  | inl e => desc_items = [] ∧ e = IndexError ∧ st' = st
  end.
Proof.
  intros H%do_codegen_items_inr. destruct desc_items as [|item rest]; cbn.
  - cbn in H. em_unfold. by inversion H.
  - apply emit_items_emitted in H. by apply items_emitted_head in H.
Qed.

Lemma do_codegen_root_defined_witness :
  ∃ stmts type_ args,
    bufsrc (snd (do_codegen_items [enable_node; reset_node] false example_state)) = stmts
    ∧ SItem "menuEnable" type_ args ∈ stmts.
Proof.
  exact (do_codegen_root_defined [enable_node; reset_node] false example_state
           (snd (do_codegen_items [enable_node; reset_node] false example_state))
           (callback_list_of [enable_node; reset_node]) eq_refl).
Defined.

(** X25. [setupMenuDefaults] sets flags on top-level items only: every
    call it makes is on the symbol of an item of the top-level list, made
    for a flag that differs from its default (read-only, local-only, or not
    visible), and every such flag of a top-level item gets its call; the
    flags of the items inside sub-menus are never emitted. *)
Theorem setupMenuDefaults_top_level (desc_items : list MenuNode) (c : FlagCall) :
  c ∈ setupMenuDefaults desc_items
  ↔ ∃ item, item ∈ desc_items
      ∧ ((c = SetReadOnly (symbol_of [] item) ∧ read_only (base item) = true)
         ∨ (c = SetLocalOnly (symbol_of [] item) ∧ local_only (base item) = true)
         ∨ (c = SetVisibleFalse (symbol_of [] item) ∧ visible (base item) = false)).
Proof.
  unfold setupMenuDefaults. rewrite list_elem_of_In, in_flat_map. split.
  - intros (item & Hin%list_elem_of_In & Hc%list_elem_of_In). exists item. split; [done|].
    unfold emit_default_flags_block in Hc. fold (symbol_of [] item) in Hc.
    rewrite !elem_of_app in Hc.
    destruct (read_only (base item)), (local_only (base item)), (visible (base item));
      cbn in Hc; rewrite ?list_elem_of_singleton in Hc;
      repeat match goal with
             | H : _ ∨ _ |- _ => destruct H as [H|H]
             | H : _ ∈ [] |- _ => by apply elem_of_nil in H
             end; subst; auto.
  - intros (item & Hin & Hc). exists item. split; [by apply list_elem_of_In|].
    apply list_elem_of_In. unfold emit_default_flags_block. fold (symbol_of [] item).
    rewrite !elem_of_app.
    destruct Hc as [[-> ->]|[[-> ->]|[-> ->]]]; cbn;
      [left|right; left|right; right]; apply list_elem_of_singleton; reflexivity.
Qed.

End DoCodegenExtras.
